(** * Direct collocation transcription of the lutein fed-batch problem

    A shallow embedding of [direct_collocation_lutein_1FE.py]: the Lagrange
    collocation coefficients (lines 10-40), the dynamic system (lines
    49-120), the assembly of the nonlinear program (lines 130-233), the
    decoding of the decision vector into trajectories (lines 235-258) and
    the checks after the solve (lines 260-262).

    Numbers are read in two ways.

    - What the script computes itself, the numpy arrays [C], [D], [B] of
      lines 10-40 and the constants CasADi folds while it builds an
      expression, is binary64 arithmetic.  [Float64] embeds it on the
      kernel's primitive floats, operation by operation as numpy performs
      it.
    - What the script only builds, the symbolic expressions handed to the
      solver, is read over exact rationals ([Qc], rationals in lowest terms,
      with Leibniz equality) for whatever coefficient arrays it is given.
      [Poly] and [Basis] are lines 10-40 read the same way, in exact
      arithmetic: they say what the coefficients are meant to be, and where
      a division by zero is reached; they do not say what binary64 rounding
      and overflow make of them. *)

From Stdlib Require Import List Arith Lia ZArith QArith Qcanon Field Bool.
From Stdlib Require Import Floats.
From Stdlib Require Uint63.
Import ListNotations.

Set Implicit Arguments.

(** ** Outcomes of the numeric code

    numpy divides a float64 by zero without raising: the result is [inf] or
    [nan], and it spreads through every later sum and product.  Python's own
    float division raises [ZeroDivisionError].  The three outcomes are kept
    apart. *)

Inductive outcome (A : Type) : Type :=
| Finite (a : A)
| NonFinite
| Raised.

Arguments NonFinite {A}.
Arguments Raised {A}.

Definition bind {A B : Type} (m : outcome A) (k : A -> outcome B) : outcome B :=
  match m with
  | Finite a => k a
  | NonFinite => NonFinite
  | Raised => Raised
  end.

Notation "x <- m ;; k" := (bind m (fun x => k))
  (at level 61, m at next level, right associativity).

(** ** Numbers *)

Definition qc (n : Z) (d : positive) : Qc := Q2Qc (n # d).
Definition of_nat (n : nat) : Qc := qc (Z.of_nat n) 1.

(** [sum(...)] over exact numbers. *)
Definition qsum (l : list Qc) : Qc := fold_right Qcplus 0%Qc l.

(** Assignment [a[i] = v] into an array that already has index [i]. *)
Fixpoint upd {A : Type} (i : nat) (v : A) (l : list A) : list A :=
  match l, i with
  | [], _ => []
  | _ :: t, O => v :: t
  | a :: t, S i' => a :: upd i' v t
  end.

(** Assignment [a[i, j] = v] into a matrix kept as a list of rows. *)
Definition upd2 {A : Type} (i j : nat) (v : A) (m : list (list A)) : list (list A) :=
  upd i (upd j v (nth i m [])) m.

(** ** Polynomials ([np.poly1d]), in exact arithmetic

    A polynomial is its list of coefficients, lowest degree first: numpy's
    [coeffs] read from the right.  numpy strips leading zero coefficients
    after each operation; in exact arithmetic that changes no value,
    derivative or integral and is left out.  The same operations in
    binary64, stripping included, are in [Float64]. *)

Module Poly.
Local Open Scope Qc_scope.

Definition poly := list Qc.

(** [np.poly1d(c)], with [c] highest degree first as numpy takes it. *)
Definition poly1d (c : list Qc) : poly := rev c.

(** [p(x)] *)
Fixpoint polyval (p : poly) (x : Qc) : Qc :=
  match p with
  | [] => 0
  | c :: p' => c + x * polyval p' x
  end.

Fixpoint polyadd (p q : poly) : poly :=
  match p, q with
  | [], _ => q
  | _, [] => p
  | a :: p', b :: q' => (a + b) :: polyadd p' q'
  end.

Definition polyscale (c : Qc) (p : poly) : poly := map (Qcmult c) p.

(** [p * q] *)
Fixpoint polymul (p q : poly) : poly :=
  match p with
  | [] => []
  | a :: p' => polyadd (polyscale a q) (0 :: polymul p' q)
  end.

(** [p / s] for a scalar [s]: coefficient-wise, [inf]/[nan] when [s] is
    zero.  Over exact numbers no other divisor gives a non-finite quotient;
    in binary64 a quotient can also overflow ([Float64.poly1d_truediv]). *)
Definition polydiv (p : poly) (s : Qc) : outcome poly :=
  if Qc_eq_dec s 0 then NonFinite else Finite (map (fun c => c / s) p).

Fixpoint polyder_from (n : nat) (p : poly) : poly :=
  match p with
  | [] => []
  | c :: p' => (of_nat n * c) :: polyder_from (S n) p'
  end.

(** [np.polyder(p)] *)
Definition polyder (p : poly) : poly :=
  match p with
  | [] => []
  | _ :: p' => polyder_from 1 p'
  end.

Fixpoint polyint_from (n : nat) (p : poly) : poly :=
  match p with
  | [] => []
  | c :: p' => (c / of_nat n) :: polyint_from (S n) p'
  end.

(** [np.polyint(p)], integration constant zero. *)
Definition polyint (p : poly) : poly := 0 :: polyint_from 1 p.

End Poly.

(** ** Collocation coefficients (lines 10-40), in exact arithmetic *)

Module Basis.
Import Poly.
Local Open Scope Qc_scope.

Record scheme : Type := mkScheme {
  C : list (list Qc);   (* coefficients of the collocation equation *)
  D : list Qc;          (* coefficients of the continuity equation *)
  B : list Qc           (* coefficients of the quadrature function *)
}.

(** [np.append(0, ca.collocation_points(d, 'radau'))]: the [d] points are
    CasADi's table and come in as [pts]. *)
Definition tau_root (pts : list Qc) : list Qc := 0 :: pts.

(** [np.zeros((d+1,d+1))], [np.zeros(d+1)], [np.zeros(d+1)] *)
Definition zeros (d : nat) : scheme :=
  {| C := repeat (repeat 0 (d + 1)) (d + 1);
     D := repeat 0 (d + 1);
     B := repeat 0 (d + 1) |}.

(** The inner loop of lines 25-28: the [j]-th Lagrange polynomial. *)
Definition lagrange_step (tau : list Qc) (j : nat) (acc : outcome poly) (r : nat)
  : outcome poly :=
  p <- acc ;;
  if Nat.eqb r j then Finite p
  else
    q <- polydiv (poly1d [1; - nth r tau 0]) (nth j tau 0 - nth r tau 0) ;;
    Finite (polymul p q).

Definition lagrange (d : nat) (tau : list Qc) (j : nat) : outcome poly :=
  fold_left (lagrange_step tau j) (seq 0 (d + 1)) (Finite (poly1d [1])).

(** Lines 35-36: row [j] of [C]. *)
Definition fill_C_row (d : nat) (tau : list Qc) (j : nat) (pder : poly)
    (Cm : list (list Qc)) : list (list Qc) :=
  fold_left (fun Cm r => upd2 j r (polyval pder (nth r tau 0)) Cm)
            (seq 0 (d + 1)) Cm.

(** The body of the loop of line 23. *)
Definition basis_step (d : nat) (tau : list Qc) (acc : outcome scheme) (j : nat)
  : outcome scheme :=
  s <- acc ;;
  p <- lagrange d tau j ;;
  let D' := upd j (polyval p 1) (D s) in
  let pder := polyder p in
  let C' := fill_C_row d tau j pder (C s) in
  let pint := polyint p in
  let B' := upd j (polyval pint 1) (B s) in
  Finite {| C := C'; D := D'; B := B' |}.

(** Lines 14-40 over exact numbers.  [Finite s]: the three arrays, all
    entries finite.  [NonFinite]: a division by zero was reached, and the
    arrays were filled with [inf] or [nan] among the entries.  Nothing in
    these lines raises.  The arrays numpy computes are those of
    [Float64.build]. *)
Definition build (d : nat) (tau : list Qc) : outcome scheme :=
  fold_left (basis_step d tau) (seq 0 (d + 1)) (Finite (zeros d)).

End Basis.

(** ** Collocation coefficients (lines 10-40), in binary64

    The same lines as numpy runs them.  A [poly1d] is its array [coeffs],
    highest degree first.  Every arithmetic operation is one IEEE 754
    binary64 operation, rounded to nearest even; a product is rounded before
    it is added (no fused multiply-add). *)

Module Float64.
Local Open Scope float_scope.

(** An [int] taken to float64, as numpy does when an integer array meets a
    float array; exact below [2^53]. *)
Definition of_nat (n : nat) : float := of_uint63 (Uint63.of_Z (Z.of_nat n)).

(** The rational a finite float stands for ([0] for [inf] and [nan]). *)
Definition SF2Q (x : spec_float) : Q :=
  match x with
  | S754_finite s m e =>
      ((if s then (-1) else 1) * inject_Z (Zpos m) * Qpower 2 e)%Q
  | _ => 0%Q
  end.

Definition value (x : float) : Qc := Q2Qc (SF2Q (Prim2SF x)).

(** [inf], [-inf] or [nan]: what [np.isfinite] rejects. *)
Definition nonfinite (x : float) : bool :=
  match Prim2SF x with
  | S754_nan | S754_infinity _ => true
  | _ => false
  end.

(** [np.trim_zeros(c, 'f')]: leading entries equal to zero go; [-0.0] is
    equal to zero, [nan] is not. *)
Fixpoint trim_zeros (c : list float) : list float :=
  match c with
  | [] => []
  | x :: t => if x =? 0 then trim_zeros t else c
  end.

(** [np.poly1d(c)]: leading zeros are trimmed, and an empty array becomes
    [[0.]]. *)
Definition poly1d (c : list float) : list float :=
  match trim_zeros c with
  | [] => [0]
  | c' => c'
  end.

(** Entry [t] of [np.convolve(a, v)]: the dot product of the overlap,
    accumulated from [0.] along increasing index of [a]. *)
Definition dot_at (a v : list float) (t : nat) : float :=
  fold_left
    (fun acc i =>
       if (i <=? t)%nat && (t - i <? length v)%nat
       then acc + nth i a 0 * nth (t - i) v 0
       else acc)
    (seq 0 (length a)) 0.

(** [np.convolve(a, v)], mode ['full']: the longer array comes first. *)
Definition convolve (a v : list float) : list float :=
  let (a, v) := if (length a <? length v)%nat then (v, a) else (a, v) in
  map (dot_at a v) (seq 0 (length a + length v - 1)).

(** [np.polymul(a1, a2)] on coefficient arrays. *)
Definition polymul (a1 a2 : list float) : list float :=
  convolve (poly1d a1) (poly1d a2).

(** [p * q] for two [poly1d] ([poly1d.__mul__]). *)
Definition poly1d_mul (p q : list float) : list float := poly1d (polymul p q).

(** [p / s] for a [poly1d] and a scalar ([poly1d.__truediv__]). *)
Definition poly1d_truediv (p : list float) (s : float) : list float :=
  poly1d (map (fun c => c / s) p).

(** [p(x)], that is [np.polyval]: Horner's rule from [0.]. *)
Definition polyval (p : list float) (x : float) : float :=
  fold_left (fun y pv => y * x + pv) p 0.

(** [np.polyder(p)]: [p[:-1] * arange(n, 0, -1)] with [n = len(p) - 1]. *)
Definition polyder (p : list float) : list float :=
  let n := (length p - 1)%nat in
  poly1d (map (fun i => nth i p 0 * of_nat (n - i)) (seq 0 n)).

(** [np.polyint(p)]: [p / arange(len(p), 0, -1)] followed by the constant
    [0.]. *)
Definition polyint (p : list float) : list float :=
  poly1d (map (fun i => nth i p 0 / of_nat (length p - i)) (seq 0 (length p))
          ++ [0]).

Record scheme : Type := mkScheme {
  C : list (list float);   (* coefficients of the collocation equation *)
  D : list float;          (* coefficients of the continuity equation *)
  B : list float           (* coefficients of the quadrature function *)
}.

(** [np.append(0, ca.collocation_points(d, 'radau'))]: the [d] points are
    CasADi's table and come in as [pts]. *)
Definition tau_root (pts : list float) : list float := 0 :: pts.

(** [np.zeros((d+1,d+1))], [np.zeros(d+1)], [np.zeros(d+1)] *)
Definition zeros (d : nat) : scheme :=
  {| C := repeat (repeat 0 (d + 1)) (d + 1);
     D := repeat 0 (d + 1);
     B := repeat 0 (d + 1) |}.

(** The inner loop of lines 25-28. *)
Definition lagrange_step (tau : list float) (j : nat) (p : list float) (r : nat)
  : list float :=
  if Nat.eqb r j then p
  else poly1d_mul p (poly1d_truediv (poly1d [1; - nth r tau 0])
                                    (nth j tau 0 - nth r tau 0)).

Definition lagrange (d : nat) (tau : list float) (j : nat) : list float :=
  fold_left (lagrange_step tau j) (seq 0 (d + 1)) (poly1d [1]).

(** Lines 35-36: row [j] of [C]. *)
Definition fill_C_row (d : nat) (tau : list float) (j : nat) (pder : list float)
    (Cm : list (list float)) : list (list float) :=
  fold_left (fun Cm r => upd2 j r (polyval pder (nth r tau 0)) Cm)
            (seq 0 (d + 1)) Cm.

(** The body of the loop of line 23. *)
Definition basis_step (d : nat) (tau : list float) (s : scheme) (j : nat)
  : scheme :=
  let p := lagrange d tau j in
  let D' := upd j (polyval p 1) (D s) in
  let pder := polyder p in
  let C' := fill_C_row d tau j pder (C s) in
  let pint := polyint p in
  let B' := upd j (polyval pint 1) (B s) in
  {| C := C'; D := D'; B := B' |}.

(** Lines 14-40: the three arrays as numpy leaves them. *)
Definition build (d : nat) (tau : list float) : scheme :=
  fold_left (basis_step d tau) (seq 0 (d + 1)) (zeros d).

(** [sum(D)] as Python evaluates it: from [0], left to right. *)
Definition fsum (l : list float) : float := fold_left PrimFloat.add l 0.

(** Node sets to run the build on: [n + 1] equally spaced nodes [i / n],
    and three nodes of which the second is the smallest positive float. *)
Definition equispaced (n : nat) : list float :=
  map (fun i => of_nat i / of_nat n) (seq 0 (n + 1)).

Definition tiny_gap : list float := tau_root [0x1p-1074; 1].

End Float64.

(** ** Symbolic expressions ([ca.MX]) *)

Module Expr.
Local Open Scope Qc_scope.

(** One constructor per [ca.MX.sym] call site; the arguments are the loop
    indices that appear in the symbol's name.  CasADi tells symbols apart by
    creation, and so does this type. *)
Inductive sym : Type :=
| X0                    (* 'X0' *)
| U_ (k : nat)          (* 'U_' + str(k) *)
| X_kj (k j : nat)      (* 'X_' + str(k) + '_' + str(j) *)
| X_ (k : nat).         (* 'X_' + str(k), for k = 1 .. N *)

Definition nd : nat := 3.   (* len(states) *)
Definition nu : nat := 2.   (* len(inputs) *)

Definition sym_dim (s : sym) : nat :=
  match s with
  | U_ _ => nu
  | _ => nd
  end.

Definition sym_eqb (a b : sym) : bool :=
  match a, b with
  | X0, X0 => true
  | U_ k, U_ k' => Nat.eqb k k'
  | X_kj k j, X_kj k' j' => Nat.eqb k k' && Nat.eqb j j'
  | X_ k, X_ k' => Nat.eqb k k'
  | _, _ => false
  end.

(** Vector-valued expressions.  [f_ODEeq x u] and [f_LT x u] are the two
    outputs of the CasADi function [f] of line 120. *)
Inductive MX : Type :=
| Sym (s : sym)
| Lit (l : list Qc)          (* a Python list of numbers *)
| Scale (c : Qc) (e : MX)    (* c * e *)
| Plus (a b : MX)            (* a + b *)
| Minus (a b : MX)           (* a - b *)
| f_ODEeq (x u : MX)
| f_LT (x u : MX).

Fixpoint dim (e : MX) : nat :=
  match e with
  | Sym s => sym_dim s
  | Lit l => length l
  | Scale _ a => dim a
  | Plus a _ => dim a
  | Minus a _ => dim a
  | f_ODEeq _ _ => nd
  | f_LT _ _ => 3
  end.

(** Scalar expressions: the objective [J]. *)
Inductive SX : Type :=
| Num (q : Qc)
| Idx (e : MX) (i : Z)       (* e[i]; a negative i counts from the end *)
| SPlus (a b : SX)
| SMinus (a b : SX)
| SMul (a b : SX)
| SDiv (a b : SX)
| SPow (a : SX) (n : nat).   (* a ** n *)

(** A bound on a constraint row: a number or [-np.inf]. *)
Inductive ext : Type :=
| Fin (q : Qc)
| NegInf.

(** *** Values of expressions *)

Definition vec : Type := nat -> Qc.

(** The path constraints of lines 113-117, [g = vertcat(g1, g2, g3)]. *)
Definition LT (x u : vec) : vec :=
  fun i =>
    match i with
    | 0%nat => x 0%nat - qc 26 10
    | 1%nat => - x 1%nat + qc 150 1
    | 2%nat => - qc 167 100 * x 0%nat + x 2%nat
    | _ => 0
    end.

Section Denotation.

(** The right-hand side [ODEeq] of lines 84-110 (it uses [exp]) stays a
    parameter. *)
Variable ODEeq : vec -> vec -> vec.
Variable env : sym -> vec.

Fixpoint denote (e : MX) : vec :=
  match e with
  | Sym s => env s
  | Lit l => fun i => nth i l 0
  | Scale c a => fun i => c * denote a i
  | Plus a b => fun i => denote a i + denote b i
  | Minus a b => fun i => denote a i - denote b i
  | f_ODEeq x u => ODEeq (denote x) (denote u)
  | f_LT x u => LT (denote x) (denote u)
  end.

Definition index (n : nat) (i : Z) : nat :=
  if (i <? 0)%Z then Z.to_nat (Z.of_nat n + i) else Z.to_nat i.

Fixpoint value (a : SX) : Qc :=
  match a with
  | Num q => q
  | Idx e i => denote e (index (dim e) i)
  | SPlus a b => value a + value b
  | SMinus a b => value a - value b
  | SMul a b => value a * value b
  | SDiv a b => value a / value b
  | SPow a n => value a ^ n
  end.

End Denotation.

End Expr.

(** ** Formulating the NLP (lines 122-233) *)

Module Transcribe.
Import Basis Expr.
Local Open Scope Qc_scope.

(** What one step of the assembly appends to the lists of the NLP. *)
Inductive event : Type :=
| NewVariable (v : MX) (lb ub guess : list Qc)
    (* w.append(v); lbw.append(lb); ubw.append(ub); w0.append(guess) *)
| NewConstraint (e : MX) (lb ub : list ext)
    (* g.append(e); lbg.append(lb); ubg.append(ub) *)
| PlotX (v : MX)   (* x_plot.append(v) *)
| PlotU (v : MX).  (* u_plot.append(v) *)

(** The loop-carried variables of the loop of line 154. *)
Record vars : Type := mkVars {
  Xk : MX;
  Uk_prev : MX;
  J : SX
}.

Definition T : Qc := qc 144 1.

(** [h = T/N]: Python's float division raises on a zero divisor. *)
Definition width (N : nat) : outcome Qc :=
  if Nat.eqb N 0 then Raised else Finite (T / of_nat N).

Definition lower_inf : list ext := [NegInf; NegInf; NegInf].  (* [-np.inf]*3 *)
Definition zero_ext : list ext := [Fin 0; Fin 0; Fin 0].      (* [0, 0, 0] *)

Definition x0_fixed : list Qc := [qc 27 100; qc 765 1; 0].    (* [0.27, 765., 0.0] *)
Definition x_lb : list Qc := [0; 0; 0].                       (* [0., 0., 0.] *)
Definition x_ub : list Qc := [qc 100 1; qc 100000 1; qc 100 1]. (* [100, 1e5, 100] *)
Definition x_guess : list Qc := [qc 12 10; qc 800 1; qc 2 1]. (* [1.2, 800, 2] *)
Definition u_lb : list Qc := [qc 1 10; qc 100 1].             (* [0.1, 100] *)
Definition u_ub : list Qc := [qc 100 1; qc 1000 1].           (* [100., 1000] *)
Definition u_guess : list Qc := [qc 30 1; qc 1000 1].         (* [30, 1000] *)

(** Lines 144-151. *)
Definition initial_events : list event :=
  [NewVariable (Sym X0) x0_fixed x0_fixed x0_fixed; PlotX (Sym X0)].

Definition initial_vars : vars :=
  {| Xk := Sym X0; Uk_prev := Lit [qc 1 1000; qc 100 1]; J := Num 0 |}.

(** [C[i, j]] and [Xc[i]]. *)
Definition at2 (Cm : list (list Qc)) (i j : nat) : Qc := nth j (nth i Cm []) 0.
Definition item (Xc : list MX) (i : nat) : MX := nth i Xc (Lit []).

(** Lines 170-177: the state at the collocation points. *)
Definition collocation_states (k d : nat) : list MX * list event :=
  fold_left
    (fun '(Xc, ev) j =>
       let Xkj := Sym (X_kj k j) in
       (Xc ++ [Xkj], ev ++ [NewVariable Xkj x_lb x_ub x_guess]))
    (seq 0 d) ([], []).

(** Lines 185-186: the state derivative at collocation point [j]. *)
Definition derivative (d : nat) (sc : scheme) (Xk : MX) (Xc : list MX) (j : nat) : MX :=
  fold_left (fun xp r => Plus xp (Scale (at2 (C sc) (r + 1) j) (item Xc r)))
            (seq 0 d) (Scale (at2 (C sc) 0 j) Xk).

(** Lines 182-199: the collocation equations of one interval. *)
Definition collocation_equations (d : nat) (h : Qc) (sc : scheme)
    (Xk Uk : MX) (Xc : list MX) : MX * list event :=
  fold_left
    (fun '(Xk_end, ev) j =>
       let xp := derivative d sc Xk Xc j in
       let fj := f_ODEeq (item Xc (j - 1)) Uk in
       let qj := f_LT (item Xc (j - 1)) Uk in
       (Plus Xk_end (Scale (nth j (D sc) 0) (item Xc (j - 1))),
        ev ++ [NewConstraint (Minus (Scale h fj) xp) zero_ext zero_ext;
               NewConstraint qj lower_inf zero_ext]))
    (seq 1 d) (Scale (nth 0%nat (D sc) 0) Xk, []).

(** [((Uk[i] - Uk_prev[i]) * a / b) ** 2] *)
Definition rate (Uk Uk_prev : MX) (i : Z) (a b : Qc) : SX :=
  SPow (SDiv (SMul (SMinus (Idx Uk i) (Idx Uk_prev i)) (Num a)) (Num b)) 2.

(** Lines 225-231. *)
Definition objective (N k : nat) (J : SX) (Xk Uk Uk_prev : MX) : SX :=
  if (Z.of_nat k =? Z.of_nat N - 1)%Z then
    SMinus (SMinus (SMinus (SPlus J (SMul (Num (qc 4 1)) (Idx Xk (-1))))
                           (SMul (Num (qc 1 1000)) (Idx Xk 1)))
                   (rate Uk Uk_prev 0 (qc 4 1) (qc 10 1)))
           (rate Uk Uk_prev 1 (qc 9 1) (qc 1000 1))
  else if (Z.of_nat k >? 0)%Z then
    SMinus (SMinus J (rate Uk Uk_prev 0 (qc 4 1) (qc 10 1)))
           (rate Uk Uk_prev 1 (qc 9 1) (qc 1000 1))
  else J.

(** The body of the loop of line 154, for interval [k]. *)
Definition interval (N d : nat) (h : Qc) (sc : scheme) (v : vars) (k : nat)
  : list event * vars :=
  let Uk := Sym (U_ k) in
  let control := [NewVariable Uk u_lb u_ub u_guess; PlotU Uk] in
  let qk := f_LT (Xk v) Uk in
  let operational := [NewConstraint qk lower_inf zero_ext] in
  let '(Xc, states) := collocation_states k d in
  let '(Xk_end, equations) := collocation_equations d h sc (Xk v) Uk Xc in
  let Xk' := Sym (X_ (k + 1)) in
  let boundary := [NewVariable Xk' x_lb x_ub x_guess; PlotX Xk'] in
  let continuity := [NewConstraint (Minus Xk_end Xk') zero_ext zero_ext] in
  let final :=
    if (Z.of_nat k =? Z.of_nat N - 1)%Z
    then [NewConstraint (f_LT Xk' Uk) lower_inf zero_ext]
    else [] in
  let J' := objective N k (J v) Xk' Uk (Uk_prev v) in
  (control ++ operational ++ states ++ equations ++ boundary ++ continuity ++ final,
   {| Xk := Xk'; Uk_prev := Uk; J := J' |}).

(** The first [n] rounds of the loop of line 154, after lines 130-151. *)
Definition rounds (N d : nat) (h : Qc) (sc : scheme) (n : nat) : list event * vars :=
  fold_left
    (fun '(ev, v) k => let '(e, v') := interval N d h sc v k in (ev ++ e, v'))
    (seq 0 n) (initial_events, initial_vars).

(** Lines 130-233. *)
Definition formulate (N d : nat) (h : Qc) (sc : scheme) : list event * vars :=
  rounds N d h sc N.

(** *** The lists of the NLP *)

Record nlp : Type := mkNlp {
  w : list MX;
  w0 : list (list Qc);
  lbw : list (list Qc);
  ubw : list (list Qc);
  g : list MX;
  lbg : list (list ext);
  ubg : list (list ext);
  x_plot : list MX;
  u_plot : list MX
}.

(** Lines 130-142. *)
Definition empty_nlp : nlp :=
  {| w := []; w0 := []; lbw := []; ubw := []; g := []; lbg := []; ubg := [];
     x_plot := []; u_plot := [] |}.

Definition append (p : nlp) (e : event) : nlp :=
  match e with
  | NewVariable v lb ub guess =>
      {| w := w p ++ [v]; w0 := w0 p ++ [guess];
         lbw := lbw p ++ [lb]; ubw := ubw p ++ [ub];
         g := g p; lbg := lbg p; ubg := ubg p;
         x_plot := x_plot p; u_plot := u_plot p |}
  | NewConstraint c lb ub =>
      {| w := w p; w0 := w0 p; lbw := lbw p; ubw := ubw p;
         g := g p ++ [c]; lbg := lbg p ++ [lb]; ubg := ubg p ++ [ub];
         x_plot := x_plot p; u_plot := u_plot p |}
  | PlotX v =>
      {| w := w p; w0 := w0 p; lbw := lbw p; ubw := ubw p;
         g := g p; lbg := lbg p; ubg := ubg p;
         x_plot := x_plot p ++ [v]; u_plot := u_plot p |}
  | PlotU v =>
      {| w := w p; w0 := w0 p; lbw := lbw p; ubw := ubw p;
         g := g p; lbg := lbg p; ubg := ubg p;
         x_plot := x_plot p; u_plot := u_plot p ++ [v] |}
  end.

(** The lists after a run of events, from the empty NLP. *)
Definition assemble (ev : list event) : nlp := fold_left append ev empty_nlp.

(** The NLP of the script for [N] intervals and degree [d], over the
    collocation points [pts]: lines 10-40, 124 and 130-233.  [width] is
    looked at first because it is the only step that can raise. *)
Definition offline_nlp (N d : nat) (pts : list Qc) : outcome (nlp * SX) :=
  h <- width N ;;
  sc <- build d (tau_root pts) ;;
  let '(ev, v) := formulate N d h sc in
  Finite (assemble ev, J v).

(** *** Trajectories from a decision vector (lines 236-258) *)

(** [ca.Function('trajectories', [w], ...)] reads a numeric vector along
    the concatenation of [w]: each symbol of [w] takes the next [sym_dim] entries. *)
Fixpoint bind_w (w : list MX) (wv : list Qc) : list (sym * list Qc) :=
  match w with
  | [] => []
  | Sym s :: w' =>
      (s, firstn (sym_dim s) wv) :: bind_w w' (skipn (sym_dim s) wv)
  | e :: w' => bind_w w' (skipn (dim e) wv)
  end.

Fixpoint lookup (b : list (sym * list Qc)) (s : sym) : list Qc :=
  match b with
  | [] => []
  | (s', x) :: b' => if sym_eqb s' s then x else lookup b' s
  end.

(** One column of the matrix made of [x_plot], or of [u_plot]. *)
Definition column (b : list (sym * list Qc)) (e : MX) : list Qc :=
  match e with
  | Sym s => lookup b s
  | _ => []
  end.

(** [trajectories(wv)]: the matrices [x] and [u], as lists of columns. *)
Definition trajectories (p : nlp) (wv : list Qc) : list (list Qc) * list (list Qc) :=
  let b := bind_w (w p) wv in
  (map (column b) (x_plot p), map (column b) (u_plot p)).

Section Script.

(** The solver ([ca.nlpsol] with ipopt, line 248) is not part of the
    script: it takes the NLP and its objective to a decision vector. *)
Variable solver : nlp -> SX -> list Qc.

(** [offline_profile()] up to the plots, with the script's [N = 6] and
    [d = 5]; the result is [u_opt]. *)
Definition offline_profile (pts : list Qc) : outcome (list (list Qc)) :=
  r <- offline_nlp 6 5 pts ;;
  Finite (snd (trajectories (fst r) (solver (fst r) (snd r)))).

End Script.

End Transcribe.

(** ** Proof-side definitions for the collocation coefficients *)

Module BasisSpec.
Import Poly Basis.
Local Open Scope Qc_scope.

(** Quotient of [p] by [x - a] (Horner's scheme). *)
Fixpoint sdiv (a : Qc) (p : poly) : poly :=
  match p with
  | [] => []
  | _ :: p' =>
      match p' with
      | [] => []
      | _ :: _ => polyval p' a :: sdiv a p'
      end
  end.

(** The factor that index [r] contributes to the [j]-th basis polynomial. *)
Definition factor (tau : list Qc) (j r : nat) : poly :=
  map (fun c => c / (nth j tau 0 - nth r tau 0)) (poly1d [1; - nth r tau 0]).

(** The [j]-th basis polynomial over the indices [rs], with no division
    checked: what [lagrange] returns when no denominator is zero. *)
Definition basis_poly (tau : list Qc) (j : nat) (rs : list nat) (p0 : poly) : poly :=
  fold_left (fun p r => if Nat.eqb r j then p else polymul p (factor tau j r)) rs p0.

(** The value at [x] of the product form of the [j]-th basis polynomial. *)
Fixpoint weight (tau : list Qc) (j : nat) (x : Qc) (rs : list nat) : Qc :=
  match rs with
  | [] => 1
  | r :: rs' =>
      (if Nat.eqb r j then 1 else (x - nth r tau 0) / (nth j tau 0 - nth r tau 0))
      * weight tau j x rs'
  end.

(** The [j]-th basis polynomial of degree [d]. *)
Definition basis (d : nat) (tau : list Qc) (j : nat) : poly :=
  basis_poly tau j (seq 0 (d + 1)) (poly1d [1]).

Definition polysum (ps : list poly) : poly := fold_right polyadd [] ps.

(** Some index pair [j <> r] of [tau] holds the same node. *)
Definition has_duplicate (tau : list Qc) : Prop :=
  exists j r, (j < length tau)%nat /\ (r < length tau)%nat /\ j <> r
              /\ nth j tau 0 = nth r tau 0.

End BasisSpec.

(** ** Proof-side definitions for the NLP *)

Module TranscribeSpec.
Import Basis Expr Transcribe.
Local Open Scope nat_scope.

(** The boundary state [X_k], the control [U_k] and the collocation state
    [Xc_{k,j}] ([j = 1 .. d]) as the symbols that stand for them. *)
Definition boundary (k : nat) : MX :=
  match k with
  | O => Sym X0
  | S _ => Sym (X_ k)
  end.

Definition control (k : nat) : MX := Sym (U_ k).

Definition colloc (k j : nat) : MX := Sym (X_kj k (j - 1)).

(** [Xc] of interval [k]. *)
Definition Xc_of (k d : nat) : list MX := map (fun j => Sym (X_kj k j)) (seq 0 d).

(** [Uk_prev] on entry to interval [k]. *)
Definition previous_control (k : nat) : MX :=
  match k with
  | O => Lit [qc 1 1000; qc 100 1]
  | S k' => control k'
  end.

(** [Xk_end] after the collocation loop has run [n] rounds. *)
Definition end_state (sc : scheme) (Xk : MX) (Xc : list MX) (n : nat) : MX :=
  fold_left (fun acc j => Plus acc (Scale (nth j (D sc) 0%Qc) (item Xc (j - 1))))
            (seq 1 n) (Scale (nth 0 (D sc) 0%Qc) Xk).

(** A row of the constraint set: expression, lower bound, upper bound. *)
Definition row : Type := MX * (list ext * list ext).

Definition path_row (x u : MX) : row := (f_LT x u, (lower_inf, zero_ext)).

Definition defect_row (d : nat) (h : Qc) (sc : scheme) (k j : nat) : row :=
  (Minus (Scale h (f_ODEeq (colloc k j) (control k)))
         (derivative d sc (boundary k) (Xc_of k d) j),
   (zero_ext, zero_ext)).

Definition continuity_row (d : nat) (sc : scheme) (k : nat) : row :=
  (Minus (end_state sc (boundary k) (Xc_of k d) d) (boundary (k + 1)),
   (zero_ext, zero_ext)).

Definition constraint_event (r : row) : event :=
  NewConstraint (fst r) (fst (snd r)) (snd (snd r)).

Definition state_variable (v : MX) : event := NewVariable v x_lb x_ub x_guess.

(** The events of interval [k], written out. *)
Definition block (N d : nat) (h : Qc) (sc : scheme) (k : nat) : list event :=
  [NewVariable (control k) u_lb u_ub u_guess; PlotU (control k)]
  ++ [constraint_event (path_row (boundary k) (control k))]
  ++ map state_variable (Xc_of k d)
  ++ flat_map (fun j => [constraint_event (defect_row d h sc k j);
                         constraint_event (path_row (colloc k j) (control k))])
              (seq 1 d)
  ++ [state_variable (boundary (k + 1)); PlotX (boundary (k + 1))]
  ++ [constraint_event (continuity_row d sc k)]
  ++ (if Nat.eqb (k + 1) N
      then [constraint_event (path_row (boundary (k + 1)) (control k))]
      else []).

(** The events of interval [k] up to the end of the collocation loop, and
    those of lines 217-222. *)
Definition block_start (d : nat) (h : Qc) (sc : scheme) (k : nat) : list event :=
  [NewVariable (control k) u_lb u_ub u_guess; PlotU (control k)]
  ++ [constraint_event (path_row (boundary k) (control k))]
  ++ map state_variable (Xc_of k d)
  ++ flat_map (fun j => [constraint_event (defect_row d h sc k j);
                         constraint_event (path_row (colloc k j) (control k))])
              (seq 1 d).

Definition block_final (N k : nat) : list event :=
  if Nat.eqb (k + 1) N
  then [constraint_event (path_row (boundary (k + 1)) (control k))]
  else [].

(** The events before interval [k] and after it. *)
Definition events_before (N d : nat) (h : Qc) (sc : scheme) (k : nat) : list event :=
  initial_events ++ flat_map (block N d h sc) (seq 0 k).

Definition events_after (N d : nat) (h : Qc) (sc : scheme) (k : nat) : list event :=
  flat_map (block N d h sc) (seq (S k) (N - S k)).

(** [J] after [n] rounds of the loop. *)
Fixpoint objective_after (N n : nat) : SX :=
  match n with
  | O => Num 0%Qc
  | S n' => objective N n' (objective_after N n')
                      (boundary (n' + 1)) (control n') (previous_control n')
  end.

(** What one event appends to each list of the NLP. *)
Definition new_w (e : event) : list MX :=
  match e with NewVariable v _ _ _ => [v] | _ => [] end.
Definition new_lbw (e : event) : list (list Qc) :=
  match e with NewVariable _ lb _ _ => [lb] | _ => [] end.
Definition new_ubw (e : event) : list (list Qc) :=
  match e with NewVariable _ _ ub _ => [ub] | _ => [] end.
Definition new_w0 (e : event) : list (list Qc) :=
  match e with NewVariable _ _ _ guess => [guess] | _ => [] end.
Definition new_g (e : event) : list MX :=
  match e with NewConstraint c _ _ => [c] | _ => [] end.
Definition new_lbg (e : event) : list (list ext) :=
  match e with NewConstraint _ lb _ => [lb] | _ => [] end.
Definition new_ubg (e : event) : list (list ext) :=
  match e with NewConstraint _ _ ub => [ub] | _ => [] end.
Definition new_x_plot (e : event) : list MX :=
  match e with PlotX v => [v] | _ => [] end.
Definition new_u_plot (e : event) : list MX :=
  match e with PlotU v => [v] | _ => [] end.

(** The rows that a run of events appends to the constraint set. *)
Definition constraints (ev : list event) : list row :=
  flat_map (fun e => match e with
                     | NewConstraint c lb ub => [(c, (lb, ub))]
                     | _ => []
                     end) ev.

(** The constraint set held by the lists [g], [lbg], [ubg]. *)
Definition rows (p : nlp) : list row := combine (g p) (combine (lbg p) (ubg p)).

(** The rows of one interval, the extra row of the last interval left out. *)
Definition interval_rows (d : nat) (h : Qc) (sc : scheme) (k : nat) : list row :=
  [path_row (boundary k) (control k)]
  ++ flat_map (fun j => [defect_row d h sc k j;
                         path_row (colloc k j) (control k)]) (seq 1 d)
  ++ [continuity_row d sc k].

(** The symbols that interval [k] appends to [w]. *)
Definition interval_variables (d k : nat) : list MX :=
  control k :: Xc_of k d ++ [boundary (k + 1)].

(** Number of scalars in a list of vectors. *)
Definition total_dim (l : list MX) : nat := list_sum (map dim l).
Definition total_length {A : Type} (l : list (list A)) : nat := length (concat l).

(** The bound and guess lists line up with the symbolic lists. *)
Definition aligned (p : nlp) : Prop :=
  total_length (lbw p) = total_dim (w p)
  /\ total_length (ubw p) = total_dim (w p)
  /\ total_length (w0 p) = total_dim (w p)
  /\ total_length (lbg p) = total_dim (g p)
  /\ total_length (ubg p) = total_dim (g p).

Definition well_sized (e : event) : Prop :=
  match e with
  | NewVariable v lb ub guess =>
      length lb = dim v /\ length ub = dim v /\ length guess = dim v
  | NewConstraint c lb ub => length lb = dim c /\ length ub = dim c
  | _ => True
  end.

(** A decision vector laid out as [X_0, U_0, Xc_{0,1..d}, X_1, ..., X_N]
    from its blocks: [x k] is [X_k], [u k] is [U_k], [xc k j] is
    [Xc_{k,j}]. *)
Definition decision_vector (N d : nat) (x u : nat -> list Qc)
    (xc : nat -> nat -> list Qc) : list Qc :=
  x 0 ++ flat_map (fun k => u k ++ flat_map (xc k) (seq 1 d) ++ x (k + 1)) (seq 0 N).

(** The symbols of [w], in order, and what each is bound to when the
    decision vector above is read along [w]. *)
Definition interval_symbols (d k : nat) : list sym :=
  U_ k :: map (X_kj k) (seq 0 d) ++ [X_ (k + 1)].

Definition symbols (N d : nat) : list sym :=
  X0 :: flat_map (interval_symbols d) (seq 0 N).

Definition interval_bindings (d : nat) (x u : nat -> list Qc)
    (xc : nat -> nat -> list Qc) (k : nat) : list (sym * list Qc) :=
  (U_ k, u k) :: map (fun j => (X_kj k j, xc k (S j))) (seq 0 d)
  ++ [(X_ (k + 1), x (k + 1))].

Definition bindings (N d : nat) (x u : nat -> list Qc)
    (xc : nat -> nat -> list Qc) : list (sym * list Qc) :=
  (X0, x 0) :: flat_map (interval_bindings d x u xc) (seq 0 N).

(** Position of a symbol in [w] for degree [d]. *)
Definition rank (d : nat) (s : sym) : nat :=
  match s with
  | X0 => 0
  | U_ k => k * (d + 2) + 1
  | X_kj k j => k * (d + 2) + 2 + j
  | X_ k => k * (d + 2)
  end.

(** The value of [Uk_prev] on entry to interval [k]. *)
Definition previous_value (env : sym -> vec) (k : nat) : vec :=
  match k with
  | O => fun i => nth i [qc 1 1000; qc 100 1] 0%Qc
  | S k' => env (U_ k')
  end.

(** Entry-wise [a <= b], decided. *)
Fixpoint all_le (a b : list Qc) : bool :=
  match a, b with
  | [], [] => true
  | x :: a', y :: b' => Qle_bool x y && all_le a' b'
  | _, _ => false
  end.

(** A decision vector for one interval of degree one: every entry at its
    lower bound. *)
Definition sample_vector : list Qc := x0_fixed ++ u_lb ++ x_lb ++ x_lb.

(** An assignment of values to the symbols, and a right-hand side, for
    evaluating the objective of a one-interval problem. *)
Definition sample_env : sym -> vec :=
  fun s i =>
    match s with
    | X_ 1 => if Nat.eqb i 2 then 1%Qc else 0%Qc
    | U_ 0 => nth i [qc 1 1000; qc 100 1] 0%Qc
    | _ => 0%Qc
    end.

Definition sample_ODEeq : vec -> vec -> vec := fun _ _ _ => 0%Qc.

End TranscribeSpec.

(** ** Proof-side definitions for the NLP as a whole *)

Module NlpSpec.
Import Basis Expr Transcribe TranscribeSpec.
Local Open Scope nat_scope.

(** The symbols an expression is built from. *)
Fixpoint syms (e : MX) : list sym :=
  match e with
  | Sym s => [s]
  | Lit _ => []
  | Scale _ a => syms a
  | Plus a b => syms a ++ syms b
  | Minus a b => syms a ++ syms b
  | f_ODEeq x u => syms x ++ syms u
  | f_LT x u => syms x ++ syms u
  end.

Fixpoint syms_SX (a : SX) : list sym :=
  match a with
  | Num _ => []
  | Idx e _ => syms e
  | SPlus a b => syms_SX a ++ syms_SX b
  | SMinus a b => syms_SX a ++ syms_SX b
  | SMul a b => syms_SX a ++ syms_SX b
  | SDiv a b => syms_SX a ++ syms_SX b
  | SPow a _ => syms_SX a
  end.

(** The symbol of the boundary state [X_k]. *)
Definition boundary_sym (k : nat) : sym :=
  match k with
  | O => X0
  | S _ => X_ k
  end.

(** Order on constraint bounds, [-inf] below every number. *)
Definition ext_le (a b : ext) : Prop :=
  match a, b with
  | NegInf, _ => True
  | Fin x, Fin y => (x <= y)%Qc
  | Fin _, NegInf => False
  end.

(** What an event must satisfy for the guess to lie within the bounds. *)
Definition consistent (e : event) : Prop :=
  match e with
  | NewVariable _ lb ub guess => Forall2 Qcle lb guess /\ Forall2 Qcle guess ub
  | NewConstraint _ lb ub => Forall2 ext_le lb ub
  | _ => True
  end.

(** Scalars per interval in the decision vector: [nu + d * nd + nd]. *)
Definition stride (d : nat) : nat := 3 * d + 5.

(** [wv[off : off + n]] *)
Definition slice (wv : list Qc) (off n : nat) : list Qc := firstn n (skipn off wv).

(** The control-rate penalty of interval [k], as a number. *)
Definition rate_penalty (env : sym -> vec) (k : nat) : Qc :=
  (((env (U_ k) 0%nat - previous_value env k 0%nat) * qc 4 1 / qc 10 1) ^ 2
   + ((env (U_ k) 1%nat - previous_value env k 1%nat) * qc 9 1 / qc 1000 1) ^ 2)%Qc.

(** The terminal reward, as a number. *)
Definition terminal_reward (env : sym -> vec) (N : nat) : Qc :=
  (qc 4 1 * env (X_ N) 2%nat - qc 1 1000 * env (X_ N) 1%nat)%Qc.

(** An assignment that gives every symbol the same state vector. *)
Definition steady_env (v : vec) : sym -> vec := fun _ => v.

End NlpSpec.

(** ** The dynamic system (lines 49-120)

    [ca.exp] is CasADi's and comes in as [exp]; on floats it is a function
    from rationals to rationals.  Division is the field's: where a
    denominator is zero the script's floats are [inf] or [nan], so the
    statements about values carry [defined] as a hypothesis.

    An operation whose operands are both constants is evaluated by CasADi
    in binary64 while the expression is built: the depths
    [i*L/(disc_int-1)], the differences [L - z] and the factors [u_m/20],
    [k_m/20].  These are computed on floats here and enter the expression
    with the value they have.  An operation with [Cx], [Cn], [Cl], [Fnin] or
    [I0] below it stays in the expression. *)

Module Dynamics.
Import Expr.
Import Float64 (value).
Local Open Scope Qc_scope.

(** [modparval], by the names of [modpar]. *)
Definition u_m : float := 0x1.374bc6a7ef9dbp-3%float.   (* 0.152 *)
Definition K_N : Qc := qc 30 1.
Definition u_d : Qc := qc 595 100000.    (* 5.95e-3 *)
Definition Y_nx : Qc := qc 305 1.
Definition k_m : float := 0x1.6666666666666p-2%float.   (* 0.35 *)
Definition Kd : Qc := qc 371 100000.     (* 3.71e-3 *)
Definition K_NL : Qc := qc 10 1.
Definition Ks : Qc := qc 1428 10.        (* 142.8 *)
Definition Ki : Qc := qc 2142 10.        (* 214.2 *)
Definition Ksl : Qc := qc 3206 10.       (* 320.6 *)
Definition Kil : Qc := qc 4809 10.       (* 480.9 *)
Definition tau : Qc := qc 120 1.         (* 0.120*1000 *)
Definition Ka : Qc := 0.                 (* 0.0 *)
Definition L : float := 0x1.5810624dd2f1bp-4%float.     (* 0.084 *)

Definition disc_int : nat := 11.

Section Model.

Variable exp : Qc -> Qc.

(** Lines 84-86; [z] and [L] are constants at every call. *)
Definition lb_law (tau X Ka : Qc) (z L : float) (I0 : Qc) : Qc :=
  I0 * (exp (- (tau * X + Ka) * value z)
        + exp (- (tau * X + Ka) * value (L - z)%float)).

(** Line 91: [Iz[i]]. *)
Definition Iz (Cx I0 : Qc) (i : nat) : Qc :=
  lb_law tau Cx Ka
         (Float64.of_nat i * L / Float64.of_nat (disc_int - 1))%float L I0.

(** Lines 94-100: the trapezoid sums. *)
Definition trap (K1 K2 : Qc) (Cx I0 : Qc) : Qc :=
  fold_left
    (fun acc i => acc + qc 2 1 * Iz Cx I0 i / (Iz Cx I0 i + K1 + (Iz Cx I0 i ^ 2%nat) / K2))
    (seq 1 (disc_int - 1 - 1))
    (Iz Cx I0 0 / (Iz Cx I0 0 + K1 + (Iz Cx I0 0 ^ 2%nat) / K2)
     + Iz Cx I0 (disc_int - 1)
       / (Iz Cx I0 (disc_int - 1) + K1 + (Iz Cx I0 (disc_int - 1) ^ 2%nat) / K2)).

Definition um_trap : Qc -> Qc -> Qc := trap Ks Ki.
Definition km_trap : Qc -> Qc -> Qc := trap Ksl Kil.

(** Lines 102-103. *)
Definition u_0 (Cx I0 : Qc) : Qc := value (u_m / 20)%float * um_trap Cx I0.
Definition k_0 (Cx I0 : Qc) : Qc := value (k_m / 20)%float * km_trap Cx I0.

(** Lines 106-108, with [Cx, Cn, Cl = xd[0..2]] and [Fnin, I0 = u[0..1]]. *)
Definition dev_Cx (Cx Cn Cl Fnin I0 : Qc) : Qc :=
  u_0 Cx I0 * Cx * Cn / (Cn + K_N) - u_d * Cx.

Definition dev_Cn (Cx Cn Cl Fnin I0 : Qc) : Qc :=
  - Y_nx * u_0 Cx I0 * Cx * Cn / (Cn + K_N) + Fnin.

Definition dev_Cl (Cx Cn Cl Fnin I0 : Qc) : Qc :=
  k_0 Cx I0 * Cn / (Cn + K_NL) * Cx - Kd * Cl * Cx.

(** Line 110: the first output of [f]. *)
Definition ODEeq (x u : vec) : vec :=
  fun i =>
    match i with
    | 0%nat => dev_Cx (x 0%nat) (x 1%nat) (x 2%nat) (u 0%nat) (u 1%nat)
    | 1%nat => dev_Cn (x 0%nat) (x 1%nat) (x 2%nat) (u 0%nat) (u 1%nat)
    | 2%nat => dev_Cl (x 0%nat) (x 1%nat) (x 2%nat) (u 0%nat) (u 1%nat)
    | _ => 0
    end.

(** No division of lines 94-108 has a zero denominator. *)
Definition defined (x u : vec) : Prop :=
  x 1%nat + K_N <> 0
  /\ x 1%nat + K_NL <> 0
  /\ forall i, (i < disc_int)%nat ->
       Iz (x 0%nat) (u 1%nat) i + Ks + (Iz (x 0%nat) (u 1%nat) i ^ 2%nat) / Ki <> 0
       /\ Iz (x 0%nat) (u 1%nat) i + Ksl + (Iz (x 0%nat) (u 1%nat) i ^ 2%nat) / Kil <> 0.

End Model.

(** A state and a control for trying the model out, and a stand-in for
    [exp]. *)
Definition sample_state : vec := fun i => nth i [qc 27 100; qc 765 1; 0] 0.
Definition sample_control : vec := fun i => nth i [qc 30 1; qc 1000 1] 0.
Definition dark_control : vec := fun i => nth i [qc 30 1; 0] 0.
Definition empty_state : vec := fun i => nth i [0; qc 765 1; 0] 0.
Definition sample_exp : Qc -> Qc := fun _ => 1.

End Dynamics.

(** ** The checks after the solve (lines 257-262)

    [x_opt] is the state matrix of [trajectories], a list of columns;
    [x_opt[i]] is its row [i]. *)

Module PostSolve.
Local Open Scope Qc_scope.

Definition getrow (x_opt : list (list Qc)) (i : nat) : list Qc :=
  map (fun c => nth i c 0) x_opt.

(** Line 260: [x_opt[0] * -1.67 + x_opt[2]]. *)
Definition g1 (x_opt : list (list Qc)) : list Qc :=
  map (fun p => fst p * - qc 167 100 + snd p)
      (combine (getrow x_opt 0) (getrow x_opt 2)).

(** Line 261: [-x_opt[1] + 150]. *)
Definition g2 (x_opt : list (list Qc)) : list Qc :=
  map (fun b => - b + qc 150 1) (getrow x_opt 1).

(** Line 262: [x_opt[0] - 2.6]. *)
Definition g3 (x_opt : list (list Qc)) : list Qc :=
  map (fun a => a - qc 26 10) (getrow x_opt 0).

(** Column [k] as the vector the model's functions take. *)
Definition state_at (x_opt : list (list Qc)) (k : nat) : Expr.vec :=
  fun i => nth i (nth k x_opt []) 0.

End PostSolve.

(** ** Proof-side definitions for the binary64 coefficients *)

Module Float64Spec.
Import Float64.

(** The entries of a list of numbers are pairwise distinct. *)
Fixpoint distinctb (l : list Qc) : bool :=
  match l with
  | [] => true
  | a :: t => forallb (fun b => if Qc_eq_dec a b then false else true) t
              && distinctb t
  end.


End Float64Spec.

(** * Properties *)

Module PolyFacts.
Import Poly BasisSpec.
Local Open Scope Qc_scope.

Lemma polyval_polyadd (p q : poly) (x : Qc) :
  polyval (polyadd p q) x = polyval p x + polyval q x.
Proof.
  revert q; induction p as [|a p IH]; intros [|b q]; simpl; try ring.
  rewrite IH; ring.
Qed.

Lemma polyval_polyscale (c : Qc) (p : poly) (x : Qc) :
  polyval (polyscale c p) x = c * polyval p x.
Proof.
  induction p as [|a p IH]; simpl; [ring|].
  fold (polyscale c p). rewrite IH; ring.
Qed.

Lemma polyval_polymul (p q : poly) (x : Qc) :
  polyval (polymul p q) x = polyval p x * polyval q x.
Proof.
  induction p as [|a p IH]; simpl; [ring|].
  rewrite polyval_polyadd, polyval_polyscale. simpl. rewrite IH. ring.
Qed.

Lemma length_polyadd (p q : poly) :
  length (polyadd p q) = Nat.max (length p) (length q).
Proof.
  revert q; induction p as [|a p IH]; intros [|b q]; simpl; auto.
Qed.

Lemma length_polymul (p q : poly) :
  (1 <= length q)%nat ->
  (length (polymul p q) <= length p + length q - 1)%nat.
Proof.
  intros Hq. induction p as [|a p IH]; simpl; [lia|].
  rewrite length_polyadd. unfold polyscale. rewrite length_map. simpl. lia.
Qed.

Lemma length_sdiv (a : Qc) (p : poly) : length (sdiv a p) = pred (length p).
Proof.
  induction p as [|c p IH]; simpl; auto.
  destruct p as [|c' p]; simpl in *; auto.
Qed.

(** Factor theorem. *)
Lemma polyval_sdiv (a : Qc) (p : poly) (x : Qc) :
  polyval p x = (x - a) * polyval (sdiv a p) x + polyval p a.
Proof.
  induction p as [|c p IH]; [simpl; ring|].
  destruct p as [|c' p]; [simpl; ring|].
  change (polyval (c :: c' :: p) x) with (c + x * polyval (c' :: p) x).
  change (polyval (c :: c' :: p) a) with (c + a * polyval (c' :: p) a).
  change (sdiv a (c :: c' :: p)) with (polyval (c' :: p) a :: sdiv a (c' :: p)).
  change (polyval (polyval (c' :: p) a :: sdiv a (c' :: p)) x)
    with (polyval (c' :: p) a + x * polyval (sdiv a (c' :: p)) x).
  rewrite IH at 1. ring.
Qed.

(** A polynomial with no more coefficients than it has distinct roots is
    zero everywhere. *)
Lemma roots_bound (l : list Qc) :
  NoDup l ->
  forall p : poly,
    (length p <= length l)%nat ->
    (forall a, In a l -> polyval p a = 0) ->
    forall x, polyval p x = 0.
Proof.
  induction 1 as [|a l Hnin Hnd IH]; intros p Hlen Hroot x.
  - destruct p; [reflexivity | simpl in Hlen; lia].
  - rewrite (polyval_sdiv a p x).
    rewrite (Hroot a (or_introl eq_refl)).
    assert (Hq : forall y, polyval (sdiv a p) y = 0); [|rewrite Hq; ring].
    apply IH.
    + rewrite length_sdiv. simpl in Hlen. lia.
    + intros b Hb.
      assert (Hpb : polyval p b = 0) by (apply Hroot; right; exact Hb).
      rewrite (polyval_sdiv a p b), (Hroot a (or_introl eq_refl)) in Hpb.
      assert (Hne : b - a <> 0).
      { intro E. apply Hnin. replace a with b; [exact Hb|].
        transitivity (b - a + a); [ring | rewrite E; ring]. }
      apply Qcmult_integral_l with (x := b - a); [exact Hne|].
      rewrite <- Hpb. ring.
Qed.

Lemma polyval_polysum (ps : list poly) (x : Qc) :
  polyval (polysum ps) x = qsum (map (fun p => polyval p x) ps).
Proof.
  induction ps as [|p ps IH]; simpl; [reflexivity|].
  rewrite polyval_polyadd, IH. reflexivity.
Qed.

Lemma length_polysum (ps : list poly) (n : nat) :
  Forall (fun p => (length p <= n)%nat) ps -> (length (polysum ps) <= n)%nat.
Proof.
  induction 1 as [|p ps Hp _ IH]; simpl; [lia|].
  rewrite length_polyadd. lia.
Qed.

End PolyFacts.

Module BasisFacts.
Import Poly Basis BasisSpec PolyFacts.
Local Open Scope Qc_scope.

Lemma sub_eq_zero (a b : Qc) : a - b = 0 -> a = b.
Proof.
  intro E. transitivity (a - b + b); [ring | rewrite E; ring].
Qed.

Lemma polydiv_nonzero (p : poly) (s : Qc) :
  s <> 0 -> polydiv p s = Finite (map (fun c => c / s) p).
Proof.
  intro Hs. unfold polydiv. destruct (Qc_eq_dec s 0); [contradiction | reflexivity].
Qed.

Lemma polydiv_zero (p : poly) : polydiv p 0 = NonFinite.
Proof.
  unfold polydiv. destruct (Qc_eq_dec 0 0) as [_|H]; [reflexivity | now elim H].
Qed.

Lemma lagrange_fold_nonfinite (tau : list Qc) (j : nat) (rs : list nat) :
  fold_left (lagrange_step tau j) rs NonFinite = NonFinite.
Proof.
  induction rs as [|r rs IH]; simpl; auto.
Qed.

(** With no zero denominator the loop returns the unchecked product. *)
Lemma lagrange_fold_finite (tau : list Qc) (j : nat) (rs : list nat) :
  (forall r, In r rs -> r <> j -> nth j tau 0 <> nth r tau 0) ->
  forall p0,
    fold_left (lagrange_step tau j) rs (Finite p0)
    = Finite (basis_poly tau j rs p0).
Proof.
  unfold basis_poly.
  induction rs as [|r rs IH]; intros Hne p0; simpl; [reflexivity|].
  destruct (Nat.eqb r j) eqn:E.
  - apply IH. intros r' Hr'. apply Hne. now right.
  - rewrite polydiv_nonzero.
    + simpl. apply IH. intros r' Hr'. apply Hne. now right.
    + intro Hz. apply sub_eq_zero in Hz. revert Hz.
      apply Hne; [now left | now apply Nat.eqb_neq].
Qed.

(** A zero denominator anywhere in the loop makes the result non-finite. *)
Lemma lagrange_fold_duplicate (tau : list Qc) (j r : nat) (rs : list nat) :
  In r rs -> r <> j -> nth j tau 0 = nth r tau 0 ->
  forall acc, acc <> Raised ->
    fold_left (lagrange_step tau j) rs acc = NonFinite.
Proof.
  intros Hin Hrj Heq.
  induction rs as [|r' rs IH]; intros acc Hacc; [contradiction|].
  simpl. destruct Hin as [->|Hin].
  - destruct acc as [p| |]; [|apply lagrange_fold_nonfinite|contradiction].
    simpl. apply Nat.eqb_neq in Hrj. rewrite Hrj.
    rewrite Heq. replace (nth r tau 0 - nth r tau 0) with 0 by ring.
    rewrite polydiv_zero. simpl. apply lagrange_fold_nonfinite.
  - apply IH; [exact Hin|].
    destruct acc as [p| |]; simpl; try discriminate; [|contradiction].
    destruct (Nat.eqb r' j); [discriminate|].
    unfold polydiv. destruct (Qc_eq_dec _ _); simpl; discriminate.
Qed.

Lemma polyval_factor (tau : list Qc) (j r : nat) (x : Qc) :
  polyval (factor tau j r) x = (x - nth r tau 0) / (nth j tau 0 - nth r tau 0).
Proof.
  unfold factor, poly1d. simpl. unfold Qcdiv. ring.
Qed.

Lemma polyval_basis_poly (tau : list Qc) (j : nat) (x : Qc) (rs : list nat) :
  forall p0, polyval (basis_poly tau j rs p0) x = polyval p0 x * weight tau j x rs.
Proof.
  unfold basis_poly.
  induction rs as [|r rs IH]; intros p0; simpl; [ring|].
  rewrite IH. destruct (Nat.eqb r j).
  - ring.
  - rewrite polyval_polymul, polyval_factor. ring.
Qed.

Lemma length_basis_poly (tau : list Qc) (j : nat) (rs : list nat) :
  forall p0,
    (length (basis_poly tau j rs p0)
     <= length p0 + length (filter (fun r => negb (Nat.eqb r j)) rs))%nat.
Proof.
  unfold basis_poly.
  induction rs as [|r rs IH]; intros p0; simpl; [lia|].
  destruct (Nat.eqb r j); simpl.
  - apply IH.
  - etransitivity; [apply IH|].
    assert (Hf : length (factor tau j r) = 2%nat) by reflexivity.
    assert (H := @length_polymul p0 (factor tau j r)).
    rewrite Hf in H. lia.
Qed.

Lemma length_filter_remove (j : nat) (l : list nat) :
  NoDup l -> In j l ->
  length (filter (fun r => negb (Nat.eqb r j)) l) = pred (length l).
Proof.
  induction 1 as [|a l Hnin Hnd IH]; intros Hin; [contradiction|].
  simpl. destruct (Nat.eqb a j) eqn:E; simpl.
  - apply Nat.eqb_eq in E. subst a.
    clear IH Hin Hnd. induction l as [|b l IHl]; simpl; [reflexivity|].
    destruct (Nat.eqb b j) eqn:Eb; simpl.
    + apply Nat.eqb_eq in Eb. subst b. elim Hnin. now left.
    + f_equal. apply IHl. intro H. apply Hnin. now right.
  - destruct Hin as [->|Hin]; [now rewrite Nat.eqb_refl in E|].
    rewrite (IH Hin). destruct l; [contradiction | reflexivity].
Qed.

(** The basis polynomial is one at its own node ... *)
Lemma weight_own_node (tau : list Qc) (j : nat) (rs : list nat) :
  (forall r, In r rs -> r <> j -> nth j tau 0 <> nth r tau 0) ->
  weight tau j (nth j tau 0) rs = 1.
Proof.
  induction rs as [|r rs IH]; intros Hne; simpl; [reflexivity|].
  rewrite IH by (intros r' Hr'; apply Hne; now right).
  destruct (Nat.eqb r j) eqn:E; [ring|].
  field. intro Hz. apply sub_eq_zero in Hz. revert Hz.
  apply Hne; [now left | now apply Nat.eqb_neq].
Qed.

(** ... and zero at every other node. *)
Lemma weight_other_node (tau : list Qc) (j i : nat) (rs : list nat) :
  In i rs -> i <> j -> weight tau j (nth i tau 0) rs = 0.
Proof.
  intros Hin Hij. induction rs as [|r rs IH]; [contradiction|].
  simpl. destruct Hin as [->|Hin].
  - apply Nat.eqb_neq in Hij. rewrite Hij.
    replace (nth i tau 0 - nth i tau 0) with 0 by ring.
    unfold Qcdiv. ring.
  - rewrite (IH Hin). ring.
Qed.

Lemma upd_app (A : Type) (l1 l2 : list A) (a v : A) :
  upd (length l1) v (l1 ++ a :: l2) = l1 ++ v :: l2.
Proof.
  induction l1 as [|b l1 IH]; simpl; [reflexivity | now rewrite IH].
Qed.


Lemma lagrange_not_raised (tau : list Qc) (j : nat) (rs : list nat) :
  forall acc, acc <> Raised -> fold_left (lagrange_step tau j) rs acc <> Raised.
Proof.
  induction rs as [|r rs IH]; intros acc Hacc; simpl; [exact Hacc|].
  apply IH. destruct acc as [p| |]; simpl; try discriminate; [|contradiction].
  destruct (Nat.eqb r j); [discriminate|].
  unfold polydiv. destruct (Qc_eq_dec _ _); simpl; discriminate.
Qed.

Lemma basis_step_not_raised (d : nat) (tau : list Qc) (acc : outcome scheme) (j : nat) :
  acc <> Raised -> basis_step d tau acc j <> Raised.
Proof.
  intros Hacc. destruct acc as [s| |]; simpl; try discriminate; [|contradiction].
  assert (H : lagrange d tau j <> Raised)
    by (apply lagrange_not_raised; discriminate).
  destruct (lagrange d tau j); simpl; [discriminate | discriminate | contradiction].
Qed.

Lemma build_fold_nonfinite (d : nat) (tau : list Qc) (js : list nat) :
  fold_left (basis_step d tau) js NonFinite = NonFinite.
Proof.
  induction js as [|j js IH]; simpl; auto.
Qed.

Lemma build_fold_duplicate (d : nat) (tau : list Qc) (j : nat) (js : list nat) :
  In j js -> lagrange d tau j = NonFinite ->
  forall acc, acc <> Raised -> fold_left (basis_step d tau) js acc = NonFinite.
Proof.
  intros Hin Hj.
  induction js as [|j' js IH]; intros acc Hacc; [contradiction|].
  simpl. destruct Hin as [->|Hin].
  - destruct acc as [s| |]; [|apply build_fold_nonfinite|contradiction].
    simpl. rewrite Hj. simpl. apply build_fold_nonfinite.
  - apply IH; [exact Hin|]. now apply basis_step_not_raised.
Qed.

Lemma distinct_nodes (d : nat) (tau : list Qc) (j : nat) :
  length tau = (d + 1)%nat -> NoDup tau -> (j < d + 1)%nat ->
  forall r, In r (seq 0 (d + 1)) -> r <> j -> nth j tau 0 <> nth r tau 0.
Proof.
  intros Hlen Hnd Hj r Hr Hrj Heq.
  apply in_seq in Hr. apply Hrj. symmetry.
  apply (proj1 (NoDup_nth tau 0) Hnd); [lia | lia | exact Heq].
Qed.

Lemma lagrange_distinct (d : nat) (tau : list Qc) (j : nat) :
  length tau = (d + 1)%nat -> NoDup tau -> (j < d + 1)%nat ->
  lagrange d tau j = Finite (basis d tau j).
Proof.
  intros Hlen Hnd Hj. unfold lagrange, basis.
  apply lagrange_fold_finite. now apply distinct_nodes.
Qed.

(** The array [D] after the first [k] rounds of the loop of line 23. *)
Lemma build_prefix (d : nat) (tau : list Qc) :
  length tau = (d + 1)%nat -> NoDup tau ->
  forall k, (k <= d + 1)%nat ->
    exists s,
      fold_left (basis_step d tau) (seq 0 k) (Finite (zeros d)) = Finite s
      /\ D s = map (fun j => polyval (basis d tau j) 1) (seq 0 k)
               ++ repeat 0 (d + 1 - k).
Proof.
  intros Hlen Hnd k. induction k as [|k IH]; intros Hk.
  - exists (zeros d). split; [reflexivity|]. simpl. now rewrite Nat.sub_0_r.
  - destruct IH as [s [Hs HD]]; [lia|].
    rewrite seq_S, fold_left_app, Hs. simpl.
    rewrite lagrange_distinct by (auto; lia). simpl.
    eexists. split; [reflexivity|]. simpl.
    rewrite HD, map_app. simpl.
    replace (d + 1 - k)%nat with (S (d + 1 - S k)) by lia. simpl.
    rewrite <- app_assoc. simpl.
    set (l1 := map _ (seq 0 k)).
    replace k with (length l1) at 1
      by (unfold l1; now rewrite length_map, length_seq).
    apply upd_app.
Qed.

Lemma length_basis (d : nat) (tau : list Qc) (j : nat) :
  (j < d + 1)%nat -> (length (basis d tau j) <= d + 1)%nat.
Proof.
  intros Hj. unfold basis.
  etransitivity; [apply length_basis_poly|].
  rewrite length_filter_remove;
    [ | apply seq_NoDup | apply in_seq; lia ].
  rewrite length_seq. simpl. lia.
Qed.

Lemma qsum_zero (A : Type) (f : A -> Qc) (l : list A) :
  (forall a, In a l -> f a = 0) -> qsum (map f l) = 0.
Proof.
  induction l as [|a l IH]; intros H; simpl; [reflexivity|].
  rewrite H by now left. rewrite IH; [ring|]. intros b Hb. apply H. now right.
Qed.

(** The basis polynomials, summed at a node, give one. *)
Lemma basis_sum_at_node (d : nat) (tau : list Qc) (i : nat) :
  length tau = (d + 1)%nat -> NoDup tau -> (i < d + 1)%nat ->
  forall js, NoDup js -> In i js -> (forall j, In j js -> (j < d + 1)%nat) ->
    qsum (map (fun j => polyval (basis d tau j) (nth i tau 0)) js) = 1.
Proof.
  intros Hlen Hnd Hi.
  assert (Hv : forall j, (j < d + 1)%nat ->
             polyval (basis d tau j) (nth i tau 0)
             = if Nat.eqb i j then 1 else 0).
  { intros j Hj. unfold basis. rewrite polyval_basis_poly.
    unfold poly1d. simpl.
    destruct (Nat.eqb i j) eqn:E.
    - apply Nat.eqb_eq in E. subst j.
      rewrite weight_own_node by now apply distinct_nodes. ring.
    - apply Nat.eqb_neq in E.
      rewrite weight_other_node; [ring | apply in_seq; lia | exact E]. }
  induction 1 as [|a js Hnin Hndjs IH]; intros Hin Hbound; [contradiction|].
  simpl. rewrite Hv by (apply Hbound; now left).
  destruct Hin as [->|Hin].
  - rewrite Nat.eqb_refl. rewrite qsum_zero; [ring|].
    intros j Hj. rewrite Hv by (apply Hbound; now right).
    destruct (Nat.eqb i j) eqn:E; [|reflexivity].
    apply Nat.eqb_eq in E. subst j. contradiction.
  - rewrite IH; [ | exact Hin | intros j Hj; apply Hbound; now right ].
    destruct (Nat.eqb i a) eqn:E; [|ring].
    apply Nat.eqb_eq in E. subst a. contradiction.
Qed.

(** Partition of unity: the basis polynomials sum to one everywhere. *)
Lemma basis_sum_everywhere (d : nat) (tau : list Qc) (x : Qc) :
  length tau = (d + 1)%nat -> NoDup tau ->
  qsum (map (fun j => polyval (basis d tau j) x) (seq 0 (d + 1))) = 1.
Proof.
  intros Hlen Hnd.
  set (Q := polyadd (polysum (map (basis d tau) (seq 0 (d + 1)))) [- (1)]).
  assert (HQ : forall y, polyval Q y
               = qsum (map (fun j => polyval (basis d tau j) y) (seq 0 (d + 1))) - 1).
  { intro y. unfold Q. rewrite polyval_polyadd, polyval_polysum, map_map.
    simpl. ring. }
  assert (Hz : polyval Q x = 0).
  { apply roots_bound with (l := tau); [exact Hnd | | ].
    - unfold Q. rewrite length_polyadd. simpl.
      assert (length (polysum (map (basis d tau) (seq 0 (d + 1)))) <= d + 1)%nat.
      { apply length_polysum. apply Forall_forall. intros p Hp.
        apply in_map_iff in Hp. destruct Hp as [j [<- Hj]].
        apply in_seq in Hj. apply length_basis. lia. }
      lia.
    - intros a Ha. destruct (In_nth tau a 0 Ha) as [i [Hi <-]].
      rewrite HQ, (@basis_sum_at_node d tau i); try ring; auto; try lia.
      + apply seq_NoDup.
      + apply in_seq. lia.
      + intros j Hj. apply in_seq in Hj. lia. }
  rewrite HQ in Hz. apply sub_eq_zero. exact Hz.
Qed.

Lemma build_finite (d : nat) (tau : list Qc) :
  length tau = (d + 1)%nat -> NoDup tau -> exists s, build d tau = Finite s.
Proof.
  intros Hlen Hnd.
  destruct (@build_prefix d tau Hlen Hnd (d + 1)%nat (Nat.le_refl _))
    as [s [Hs _]].
  now exists s.
Qed.

(** C8 (the half that holds): for every degree [d] and every set of [d+1]
    pairwise distinct nodes, the generator run in exact arithmetic returns
    finite coefficients and the continuity coefficients [D] sum to one.
    Neither [d >= 1] nor [nodes[0] = 0] is needed.  Nothing is said here of
    the sum in binary64. *)
Theorem C8_continuity_coefficients_sum_to_one (d : nat) (tau : list Qc) :
  length tau = (d + 1)%nat -> NoDup tau ->
  exists s, build d tau = Finite s
            /\ length (D s) = (d + 1)%nat
            /\ qsum (D s) = 1.
Proof.
  intros Hlen Hnd.
  destruct (@build_prefix d tau Hlen Hnd (d + 1)%nat (Nat.le_refl _))
    as [s [Hs HD]].
  exists s. split; [exact Hs|].
  rewrite Nat.sub_diag, app_nil_r in HD. rewrite HD.
  split; [now rewrite length_map, length_seq|].
  now apply basis_sum_everywhere.
Qed.

(** Radau points of degree two, [1/3] and [1], behind the node [0]. *)
Lemma C8_witness :
  length (tau_root [qc 1 3; 1]) = 3%nat
  /\ NoDup (tau_root [qc 1 3; 1])
  /\ exists s, build 2 (tau_root [qc 1 3; 1]) = Finite s
               /\ length (D s) = 3%nat /\ qsum (D s) = 1.
Proof.
  assert (Hlen : length (tau_root [qc 1 3; 1]) = 3%nat) by reflexivity.
  assert (Hnd : NoDup (tau_root [qc 1 3; 1]))
    by (repeat constructor; simpl; intuition discriminate).
  split; [exact Hlen|]. split; [exact Hnd|].
  exact (@C8_continuity_coefficients_sum_to_one 2 (tau_root [qc 1 3; 1]) Hlen Hnd).
Defined.

(** C9 (as the code behaves): a node set with a duplicate is not rejected.
    The generator reaches the division by the zero denominator and returns
    arrays holding non-finite entries; it raises nothing. *)
Theorem C9_duplicate_nodes_reach_the_division (d : nat) (tau : list Qc) :
  length tau = (d + 1)%nat -> has_duplicate tau ->
  build d tau = NonFinite.
Proof.
  intros Hlen (j & r & Hj & Hr & Hjr & Heq).
  unfold build. apply build_fold_duplicate with (j := j).
  - apply in_seq. lia.
  - unfold lagrange. apply lagrange_fold_duplicate with (r := r).
    + apply in_seq. lia.
    + auto.
    + exact Heq.
    + discriminate.
  - discriminate.
Qed.

Lemma C9_witness :
  length [0; 0] = 2%nat /\ has_duplicate [0; 0] /\ build 1 [0; 0] = NonFinite.
Proof.
  assert (Hlen : length [0; 0] = 2%nat) by reflexivity.
  assert (Hdup : has_duplicate [0; 0]).
  { exists 0%nat, 1%nat. simpl. repeat split; try lia. }
  split; [exact Hlen|]. split; [exact Hdup|].
  exact (@C9_duplicate_nodes_reach_the_division 1 [0; 0] Hlen Hdup).
Defined.

(** C9 as stated fails: on the duplicate node set [0, 0] of degree one the
    build is not rejected. *)
Lemma C9_counterexample :
  has_duplicate [0; 0] /\ build 1 [0; 0] <> Raised.
Proof.
  split.
  - exists 0%nat, 1%nat. simpl. repeat split; try lia.
  - vm_compute. discriminate.
Qed.

End BasisFacts.

Module ListFacts.
Local Open Scope nat_scope.

Lemma flat_map_agree (A B : Type) (f g : A -> list B) (l : list A) :
  (forall a, In a l -> f a = g a) -> flat_map f l = flat_map g l.
Proof.
  induction l as [|a l IH]; intros H; simpl; [reflexivity|].
  rewrite H by now left. rewrite IH; [reflexivity|].
  intros b Hb. apply H. now right.
Qed.

(** Entry [k * c + i] of a run of blocks of length [c] is entry [i] of
    block [k]. *)
Lemma nth_error_blocks (A : Type) (f : nat -> list A) (c : nat) (s n k i : nat) :
  (forall j, s <= j < s + n -> length (f j) = c) ->
  k < n -> i < c ->
  nth_error (flat_map f (seq s n)) (k * c + i) = nth_error (f (s + k)) i.
Proof.
  intros Hlen. induction n as [|n IH]; intros Hk Hi; [lia|].
  rewrite seq_S, flat_map_app. simpl. rewrite app_nil_r.
  assert (Hpre : length (flat_map f (seq s n)) = n * c).
  { rewrite flat_map_constant_length with (c := c).
    - now rewrite length_seq.
    - intros x Hx. apply in_seq in Hx. apply Hlen. lia. }
  destruct (Nat.eq_dec k n) as [->|Hne].
  - rewrite nth_error_app2 by (rewrite Hpre; lia).
    rewrite Hpre. f_equal. lia.
  - rewrite nth_error_app1 by (rewrite Hpre; nia).
    apply IH; [intros j Hj; apply Hlen; lia | lia | exact Hi].
Qed.

End ListFacts.

Module TranscribeFacts.
Import Basis Expr Transcribe TranscribeSpec ListFacts.
Local Open Scope nat_scope.

(** *** Closed forms of the loops *)

Lemma collocation_states_closed (k d : nat) :
  collocation_states k d = (Xc_of k d, map state_variable (Xc_of k d)).
Proof.
  unfold collocation_states, Xc_of. rewrite map_map.
  match goal with
  | |- fold_left ?F _ _ = _ =>
      enough (H : forall l a b,
                 fold_left F l (a, b)
                 = (a ++ map (fun j => Sym (X_kj k j)) l,
                    b ++ map (fun j => state_variable (Sym (X_kj k j))) l))
        by apply (H (seq 0 d) [] [])
  end.
  induction l as [|j l IH]; intros a b; simpl.
  - now rewrite !app_nil_r.
  - rewrite IH, <- !app_assoc. reflexivity.
Qed.

Lemma collocation_equations_closed (d : nat) (h : Qc) (sc : scheme)
    (Xk Uk : MX) (Xc : list MX) :
  collocation_equations d h sc Xk Uk Xc
  = (end_state sc Xk Xc d,
     flat_map (fun j =>
                 [NewConstraint
                    (Minus (Scale h (f_ODEeq (item Xc (j - 1)) Uk))
                           (derivative d sc Xk Xc j)) zero_ext zero_ext;
                  NewConstraint (f_LT (item Xc (j - 1)) Uk) lower_inf zero_ext])
              (seq 1 d)).
Proof.
  unfold collocation_equations, end_state.
  match goal with
  | |- fold_left ?F _ (?a0, _) = (fold_left ?G _ _, flat_map ?E _) =>
      enough (H : forall l a b,
                 fold_left F l (a, b) = (fold_left G l a, b ++ flat_map E l))
        by apply (H (seq 1 d) a0 [])
  end.
  induction l as [|j l IH]; intros a b; simpl.
  - now rewrite app_nil_r.
  - rewrite IH, <- app_assoc. reflexivity.
Qed.

Lemma item_Xc_of (k d r : nat) : r < d -> item (Xc_of k d) r = Sym (X_kj k r).
Proof.
  intros Hr. unfold item, Xc_of.
  rewrite nth_indep with (d' := Sym (X_kj k 0))
    by (now rewrite length_map, length_seq).
  rewrite (map_nth (fun j => Sym (X_kj k j))), seq_nth by exact Hr.
  reflexivity.
Qed.

Lemma final_test (k N : nat) :
  (Z.of_nat k =? Z.of_nat N - 1)%Z = Nat.eqb (k + 1) N.
Proof.
  destruct (Nat.eqb (k + 1) N) eqn:E.
  - apply Nat.eqb_eq in E. apply Z.eqb_eq. lia.
  - apply Nat.eqb_neq in E. apply Z.eqb_neq. lia.
Qed.

Lemma boundary_succ (k : nat) : boundary (k + 1) = Sym (X_ (k + 1)).
Proof. now rewrite Nat.add_1_r. Qed.

(** One round of the loop emits the events of [block]. *)
Lemma interval_closed (N d : nat) (h : Qc) (sc : scheme) (v : vars) (k : nat) :
  Xk v = boundary k ->
  interval N d h sc v k
  = (block N d h sc k,
     {| Xk := boundary (k + 1);
        Uk_prev := control k;
        J := objective N k (J v) (boundary (k + 1)) (control k) (Uk_prev v) |}).
Proof.
  intros HX. unfold interval.
  rewrite collocation_states_closed, collocation_equations_closed, HX.
  rewrite final_test, boundary_succ.
  f_equal. unfold block, continuity_row. rewrite boundary_succ.
  match goal with
  | |- context [flat_map ?F (seq 1 d)] =>
      rewrite (@flat_map_agree _ _ F
                 (fun j => [constraint_event (defect_row d h sc k j);
                            constraint_event (path_row (colloc k j) (control k))]))
  end; [reflexivity|].
  intros j Hj. apply in_seq in Hj.
  unfold constraint_event, defect_row, path_row, colloc, control. simpl.
  rewrite item_Xc_of by lia. reflexivity.
Qed.

(** The loop after [n] rounds. *)
Lemma rounds_closed (N d : nat) (h : Qc) (sc : scheme) (n : nat) :
  rounds N d h sc n
  = (initial_events ++ flat_map (block N d h sc) (seq 0 n),
     {| Xk := boundary n;
        Uk_prev := previous_control n;
        J := objective_after N n |}).
Proof.
  unfold rounds. induction n as [|n IH].
  - simpl. reflexivity.
  - rewrite seq_S, fold_left_app, IH. cbn [fold_left Nat.add].
    rewrite interval_closed by reflexivity.
    rewrite flat_map_app. cbn [flat_map]. rewrite app_nil_r, app_assoc.
    cbn [objective_after]. rewrite !Nat.add_1_r. reflexivity.
Qed.

(** *** The lists of the NLP, read off the events *)

Lemma fold_append_fields (ev : list event) :
  forall p,
    let q := fold_left append ev p in
    w q = w p ++ flat_map new_w ev
    /\ lbw q = lbw p ++ flat_map new_lbw ev
    /\ ubw q = ubw p ++ flat_map new_ubw ev
    /\ w0 q = w0 p ++ flat_map new_w0 ev
    /\ g q = g p ++ flat_map new_g ev
    /\ lbg q = lbg p ++ flat_map new_lbg ev
    /\ ubg q = ubg p ++ flat_map new_ubg ev
    /\ x_plot q = x_plot p ++ flat_map new_x_plot ev
    /\ u_plot q = u_plot p ++ flat_map new_u_plot ev.
Proof.
  induction ev as [|e ev IH]; intros p; cbn [fold_left flat_map].
  - cbv zeta. now rewrite !app_nil_r.
  - specialize (IH (append p e)). cbv zeta in IH |- *.
    destruct IH as (H1 & H2 & H3 & H4 & H5 & H6 & H7 & H8 & H9).
    rewrite H1, H2, H3, H4, H5, H6, H7, H8, H9.
    destruct e; cbn [append new_w new_lbw new_ubw new_w0 new_g new_lbg new_ubg
                     new_x_plot new_u_plot w lbw ubw w0 g lbg ubg x_plot u_plot];
      rewrite <- ?app_assoc, ?app_nil_r; repeat split; reflexivity.
Qed.

Lemma assemble_fields (ev : list event) :
  w (assemble ev) = flat_map new_w ev
  /\ lbw (assemble ev) = flat_map new_lbw ev
  /\ ubw (assemble ev) = flat_map new_ubw ev
  /\ w0 (assemble ev) = flat_map new_w0 ev
  /\ g (assemble ev) = flat_map new_g ev
  /\ lbg (assemble ev) = flat_map new_lbg ev
  /\ ubg (assemble ev) = flat_map new_ubg ev
  /\ x_plot (assemble ev) = flat_map new_x_plot ev
  /\ u_plot (assemble ev) = flat_map new_u_plot ev.
Proof.
  exact (fold_append_fields ev empty_nlp).
Qed.

Lemma rows_assemble (ev : list event) : rows (assemble ev) = constraints ev.
Proof.
  unfold rows.
  destruct (assemble_fields ev) as (_ & _ & _ & _ & -> & -> & -> & _).
  induction ev as [|e ev IH]; [reflexivity|].
  destruct e; simpl; rewrite ?IH; reflexivity.
Qed.

Lemma length_g_rows (ev : list event) :
  length (g (assemble ev)) = length (rows (assemble ev)).
Proof.
  rewrite rows_assemble.
  destruct (assemble_fields ev) as (_ & _ & _ & _ & -> & _).
  induction ev as [|e ev IH]; [reflexivity|].
  destruct e; simpl; rewrite ?IH; reflexivity.
Qed.

Lemma flat_map_flat_map (A B X : Type) (f : B -> list X) (b : A -> list B) (l : list A) :
  flat_map f (flat_map b l) = flat_map (fun a => flat_map f (b a)) l.
Proof.
  induction l as [|a l IH]; simpl; [reflexivity|].
  now rewrite flat_map_app, IH.
Qed.

Lemma flat_map_map (A B X : Type) (f : B -> list X) (m : A -> B) (l : list A) :
  flat_map f (map m l) = flat_map (fun a => f (m a)) l.
Proof.
  induction l as [|a l IH]; simpl; [reflexivity | now rewrite IH].
Qed.

Lemma flat_map_nil (A B : Type) (f : A -> list B) (l : list A) :
  (forall a, f a = []) -> flat_map f l = [].
Proof.
  intros H. induction l as [|a l IH]; simpl; [reflexivity | now rewrite H, IH].
Qed.

Lemma flat_map_single (A B : Type) (f : A -> B) (l : list A) :
  flat_map (fun a => [f a]) l = map f l.
Proof.
  induction l as [|a l IH]; simpl; [reflexivity | now rewrite IH].
Qed.

(** The rows of one interval. *)
Lemma constraints_block (N d : nat) (h : Qc) (sc : scheme) (k : nat) :
  constraints (block N d h sc k)
  = interval_rows d h sc k
    ++ (if Nat.eqb (k + 1) N
        then [path_row (boundary (k + 1)) (control k)] else []).
Proof.
  unfold block, interval_rows, constraints.
  rewrite !flat_map_app, flat_map_map, flat_map_flat_map.
  rewrite (@flat_map_nil _ _ _ (Xc_of k d)) by reflexivity.
  destruct (Nat.eqb (k + 1) N); simpl; rewrite <- ?app_assoc; reflexivity.
Qed.

(** The symbols one interval adds to [w], [x_plot] and [u_plot]. *)
Lemma new_w_block (N d : nat) (h : Qc) (sc : scheme) (k : nat) :
  flat_map new_w (block N d h sc k) = interval_variables d k.
Proof.
  unfold block, interval_variables.
  rewrite !flat_map_app, flat_map_map, flat_map_flat_map.
  rewrite (@flat_map_nil _ _ _ (seq 1 d)) by reflexivity.
  replace (flat_map (fun a => new_w (state_variable a)) (Xc_of k d))
    with (Xc_of k d)
    by (symmetry; etransitivity; [apply flat_map_single | apply map_id]).
  destruct (Nat.eqb (k + 1) N); simpl; rewrite ?app_nil_r; reflexivity.
Qed.

Lemma new_x_plot_block (N d : nat) (h : Qc) (sc : scheme) (k : nat) :
  flat_map new_x_plot (block N d h sc k) = [boundary (k + 1)].
Proof.
  unfold block.
  rewrite !flat_map_app, flat_map_map, flat_map_flat_map.
  rewrite (@flat_map_nil _ _ _ (seq 1 d)) by reflexivity.
  rewrite (@flat_map_nil _ _ _ (Xc_of k d)) by reflexivity.
  destruct (Nat.eqb (k + 1) N); reflexivity.
Qed.

Lemma new_u_plot_block (N d : nat) (h : Qc) (sc : scheme) (k : nat) :
  flat_map new_u_plot (block N d h sc k) = [control k].
Proof.
  unfold block.
  rewrite !flat_map_app, flat_map_map, flat_map_flat_map.
  rewrite (@flat_map_nil _ _ _ (seq 1 d)) by reflexivity.
  rewrite (@flat_map_nil _ _ _ (Xc_of k d)) by reflexivity.
  destruct (Nat.eqb (k + 1) N); reflexivity.
Qed.

(** Only the last interval appends its extra row. *)
Lemma extra_row_last (A : Type) (R : nat -> list A) (F : nat -> A) (N : nat) :
  1 <= N ->
  flat_map (fun k => R k ++ (if Nat.eqb (k + 1) N then [F k] else [])) (seq 0 N)
  = flat_map R (seq 0 N) ++ [F (N - 1)].
Proof.
  intros HN. destruct N as [|n]; [lia|].
  rewrite seq_S, !flat_map_app. cbn [flat_map Nat.add].
  rewrite !app_nil_r.
  replace (Nat.eqb (n + 1) (S n)) with true
    by (symmetry; apply Nat.eqb_eq; lia).
  replace (S n - 1) with n by lia.
  rewrite <- app_assoc. f_equal.
  apply flat_map_agree. intros k Hk. apply in_seq in Hk.
  replace (Nat.eqb (k + 1) (S n)) with false
    by (symmetry; apply Nat.eqb_neq; lia).
  apply app_nil_r.
Qed.

Lemma events_closed (N d : nat) (h : Qc) (sc : scheme) :
  fst (formulate N d h sc)
  = initial_events ++ flat_map (block N d h sc) (seq 0 N).
Proof.
  unfold formulate. now rewrite rounds_closed.
Qed.

(** The constraint set of the script, block by block. *)
Lemma constraint_set_closed (N d : nat) (h : Qc) (sc : scheme) :
  1 <= N ->
  rows (assemble (fst (formulate N d h sc)))
  = flat_map (interval_rows d h sc) (seq 0 N)
    ++ [path_row (boundary N) (control (N - 1))].
Proof.
  intros HN. rewrite rows_assemble, events_closed.
  unfold constraints at 1. rewrite flat_map_app. cbn [initial_events flat_map app].
  rewrite flat_map_flat_map.
  fold constraints.
  rewrite (@flat_map_agree _ _ (fun k => constraints (block N d h sc k))
             (fun k => interval_rows d h sc k
                       ++ (if Nat.eqb (k + 1) N
                           then [(fun k => path_row (boundary (k + 1)) (control k)) k]
                           else [])))
    by (intros; apply constraints_block).
  rewrite extra_row_last by exact HN.
  replace (N - 1 + 1) with N by lia. reflexivity.
Qed.

Lemma length_interval_rows (d : nat) (h : Qc) (sc : scheme) (k : nat) :
  length (interval_rows d h sc k) = 1 + d * 2 + 1.
Proof.
  unfold interval_rows. rewrite !length_app.
  rewrite flat_map_constant_length with (c := 2) by reflexivity.
  rewrite length_seq. simpl. lia.
Qed.

(** C1: for [N >= 1] intervals (and any degree [d]) the constraint set is,
    interval by interval, one path row at the interval start, then a defect
    row and a path row for each collocation index [1 .. d], then one
    continuity row; after the last interval comes one more path row.  It
    holds [N * (1 + d * 2 + 1) + 1] rows. *)
Theorem C1_constraint_blocks_in_order (N d : nat) (h : Qc) (sc : scheme) :
  1 <= N ->
  rows (assemble (fst (formulate N d h sc)))
  = flat_map (fun k =>
                [path_row (boundary k) (control k)]
                ++ flat_map (fun j => [defect_row d h sc k j;
                                       path_row (colloc k j) (control k)])
                            (seq 1 d)
                ++ [continuity_row d sc k])
             (seq 0 N)
    ++ [path_row (boundary N) (control (N - 1))]
  /\ length (g (assemble (fst (formulate N d h sc)))) = N * (1 + d * 2 + 1) + 1
  /\ length (rows (assemble (fst (formulate N d h sc)))) = N * (1 + d * 2 + 1) + 1.
Proof.
  intros HN.
  assert (Hrows := @constraint_set_closed N d h sc HN).
  assert (Hlen : length (rows (assemble (fst (formulate N d h sc))))
                 = N * (1 + d * 2 + 1) + 1).
  { rewrite Hrows, length_app.
    rewrite flat_map_constant_length with (c := 1 + d * 2 + 1)
      by (intros; apply length_interval_rows).
    rewrite length_seq. simpl. lia. }
  split; [exact Hrows|]. split; [|exact Hlen].
  rewrite <- Hlen. apply length_g_rows.
Qed.

(** *** Values of the accumulated expressions *)

Lemma denote_fold_plus (ODEeq : vec -> vec -> vec) (env : sym -> vec)
    (c : nat -> Qc) (x : nat -> MX) (i : nat) (l : list nat) :
  forall e0,
    denote ODEeq env (fold_left (fun acc r => Plus acc (Scale (c r) (x r))) l e0) i
    = (denote ODEeq env e0 i
       + qsum (map (fun r => c r * denote ODEeq env (x r) i) l))%Qc.
Proof.
  induction l as [|r l IH]; intros e0; simpl.
  - ring.
  - rewrite IH. simpl. ring.
Qed.

Lemma qsum_agree (A : Type) (f f' : A -> Qc) (l : list A) :
  (forall a, In a l -> f a = f' a) -> qsum (map f l) = qsum (map f' l).
Proof.
  induction l as [|a l IH]; intros H; simpl; [reflexivity|].
  rewrite H by now left. rewrite IH; [reflexivity|].
  intros b Hb. apply H. now right.
Qed.

(** The interpolated derivative [xp] at collocation index [j], as a value. *)
Lemma denote_derivative (ODEeq : vec -> vec -> vec) (env : sym -> vec)
    (d : nat) (sc : scheme) (k j i : nat) :
  denote ODEeq env (derivative d sc (boundary k) (Xc_of k d) j) i
  = (at2 (C sc) 0 j * denote ODEeq env (boundary k) i
     + qsum (map (fun r => at2 (C sc) r j * denote ODEeq env (colloc k r) i)
                 (seq 1 d)))%Qc.
Proof.
  unfold derivative.
  rewrite (@denote_fold_plus ODEeq env
             (fun r => at2 (C sc) (r + 1) j) (fun r => item (Xc_of k d) r)).
  simpl. f_equal.
  rewrite <- seq_shift, map_map.
  apply qsum_agree. intros r Hr. apply in_seq in Hr.
  rewrite item_Xc_of by lia. rewrite Nat.add_1_r.
  unfold colloc. simpl. now rewrite Nat.sub_0_r.
Qed.

(** The end-of-interval state [Xk_end], as a value. *)
Lemma denote_end_state (ODEeq : vec -> vec -> vec) (env : sym -> vec)
    (d : nat) (sc : scheme) (k i : nat) :
  denote ODEeq env (end_state sc (boundary k) (Xc_of k d) d) i
  = (nth 0 (D sc) 0%Qc * denote ODEeq env (boundary k) i
     + qsum (map (fun j => nth j (D sc) 0%Qc * denote ODEeq env (colloc k j) i)
                 (seq 1 d)))%Qc.
Proof.
  unfold end_state.
  rewrite (@denote_fold_plus ODEeq env
             (fun j => nth j (D sc) 0%Qc) (fun j => item (Xc_of k d) (j - 1))).
  simpl. f_equal.
  apply qsum_agree. intros j Hj. apply in_seq in Hj.
  rewrite item_Xc_of by lia. reflexivity.
Qed.

(** *** Where the rows of an interval sit *)

Lemma interval_row_at (N d : nat) (h : Qc) (sc : scheme) (k i : nat) :
  k < N -> i < 1 + d * 2 + 1 ->
  nth_error (rows (assemble (fst (formulate N d h sc)))) (k * (1 + d * 2 + 1) + i)
  = nth_error (interval_rows d h sc k) i.
Proof.
  intros Hk Hi. rewrite constraint_set_closed by lia.
  rewrite nth_error_app1.
  - rewrite nth_error_blocks; [reflexivity | | exact Hk | exact Hi].
    intros; apply length_interval_rows.
  - rewrite flat_map_constant_length with (c := 1 + d * 2 + 1)
      by (intros; apply length_interval_rows).
    rewrite length_seq. nia.
Qed.

Lemma collocation_row_at (d : nat) (h : Qc) (sc : scheme) (k j i : nat) :
  1 <= j <= d -> i < 2 ->
  nth_error (interval_rows d h sc k) (1 + ((j - 1) * 2 + i))
  = nth_error [defect_row d h sc k j; path_row (colloc k j) (control k)] i.
Proof.
  intros Hj Hi. unfold interval_rows.
  cbn [app nth_error Nat.add].
  rewrite nth_error_app1.
  - rewrite nth_error_blocks with (c := 2); [|reflexivity|lia|exact Hi].
    replace (1 + (j - 1)) with j by lia. reflexivity.
  - rewrite flat_map_constant_length with (c := 2) by reflexivity.
    rewrite length_seq. lia.
Qed.

(** C2: in every interval [k < N] and for every collocation index
    [j = 1 .. d], row [1 + 2 (j - 1)] of the interval is the defect
    [h * fj - xp] with both bounds zero, where [fj] is the first output of
    [f] at [(Xc_{k,j}, U_k)] and [xp] has the value
    [C[0][j] * X_k + sum over r = 1 .. d of C[r][j] * Xc_{k,r}]; the row right
    after it is the second output [qj] of the same call, bounded by
    [-inf] and [0]. *)
Theorem C2_defect_and_path_rows (N d : nat) (h : Qc) (sc : scheme) (k j : nat) :
  k < N -> 1 <= j <= d ->
  let cs := rows (assemble (fst (formulate N d h sc))) in
  let xp := derivative d sc (boundary k) (Xc_of k d) j in
  let at_ := k * (1 + d * 2 + 1) + (1 + (j - 1) * 2) in
  nth_error cs at_
  = Some (Minus (Scale h (f_ODEeq (colloc k j) (control k))) xp,
          ([Fin 0%Qc; Fin 0%Qc; Fin 0%Qc], [Fin 0%Qc; Fin 0%Qc; Fin 0%Qc]))
  /\ nth_error cs (at_ + 1)
     = Some (f_LT (colloc k j) (control k),
             ([NegInf; NegInf; NegInf], [Fin 0%Qc; Fin 0%Qc; Fin 0%Qc]))
  /\ forall (ODEeq : vec -> vec -> vec) (env : sym -> vec) (i : nat),
       denote ODEeq env xp i
       = (at2 (C sc) 0 j * denote ODEeq env (boundary k) i
          + qsum (map (fun r => at2 (C sc) r j * denote ODEeq env (colloc k r) i)
                      (seq 1 d)))%Qc.
Proof.
  intros Hk Hj cs xp at_. subst cs xp at_. split; [|split].
  - rewrite interval_row_at by lia.
    replace (1 + (j - 1) * 2) with (1 + ((j - 1) * 2 + 0)) by lia.
    rewrite collocation_row_at by lia. reflexivity.
  - replace (k * (1 + d * 2 + 1) + (1 + (j - 1) * 2) + 1)
      with (k * (1 + d * 2 + 1) + (1 + ((j - 1) * 2 + 1))) by lia.
    rewrite interval_row_at by lia.
    rewrite collocation_row_at by lia. reflexivity.
  - intros. apply denote_derivative.
Qed.

(** *** The events around interval [k] *)

Lemma events_split (N d : nat) (h : Qc) (sc : scheme) (k : nat) :
  k < N ->
  fst (formulate N d h sc)
  = events_before N d h sc k ++ block N d h sc k ++ events_after N d h sc k.
Proof.
  intros Hk. unfold events_before, events_after. rewrite events_closed.
  replace N with (k + S (N - S k)) at 2 by lia.
  rewrite seq_app, flat_map_app. cbn [seq flat_map Nat.add].
  now rewrite <- app_assoc.
Qed.

Lemma constraints_app (a b : list event) :
  constraints (a ++ b) = constraints a ++ constraints b.
Proof. apply flat_map_app. Qed.

(** The rows emitted before interval [k] starts. *)
Lemma constraints_before (N d : nat) (h : Qc) (sc : scheme) (k : nat) :
  k < N ->
  constraints (events_before N d h sc k)
  = flat_map (interval_rows d h sc) (seq 0 k).
Proof.
  intros Hk. unfold events_before. rewrite constraints_app. cbn [initial_events constraints flat_map app].
  fold (constraints (flat_map (block N d h sc) (seq 0 k))).
  unfold constraints. rewrite flat_map_flat_map.
  apply flat_map_agree. intros k' Hk'. apply in_seq in Hk'.
  fold (constraints (block N d h sc k')). rewrite constraints_block.
  replace (Nat.eqb (k' + 1) N) with false
    by (symmetry; apply Nat.eqb_neq; lia).
  apply app_nil_r.
Qed.

Lemma length_constraints_before (N d : nat) (h : Qc) (sc : scheme) (k : nat) :
  k < N ->
  length (constraints (events_before N d h sc k)) = k * (1 + d * 2 + 1).
Proof.
  intros Hk. rewrite constraints_before by exact Hk.
  rewrite flat_map_constant_length with (c := 1 + d * 2 + 1)
    by (intros; apply length_interval_rows).
  now rewrite length_seq.
Qed.

(** The symbols created by the events of a block. *)
Lemma new_variable_in_block (N d : nat) (h : Qc) (sc : scheme) (k : nat)
    (v : MX) (lb ub gs : list Qc) :
  In (NewVariable v lb ub gs) (block N d h sc k) -> In v (interval_variables d k).
Proof.
  intros Hin. rewrite <- (new_w_block N d h sc k).
  apply in_flat_map. exists (NewVariable v lb ub gs). split; [exact Hin | now left].
Qed.

Lemma in_interval_variables (d k : nat) (v : MX) :
  In v (interval_variables d k) ->
  v = Sym (U_ k) \/ (exists j, j < d /\ v = Sym (X_kj k j)) \/ v = Sym (X_ (k + 1)).
Proof.
  unfold interval_variables. intros [H|H]; [left; now rewrite <- H|].
  apply in_app_or in H. destruct H as [H|[H|[]]].
  - right; left. unfold Xc_of in H. apply in_map_iff in H.
    destruct H as [j [<- Hj]]. apply in_seq in Hj. exists j. split; [lia|reflexivity].
  - right; right. now rewrite <- H, boundary_succ.
Qed.

Lemma length_constraints_block_start (d : nat) (h : Qc) (sc : scheme) (k : nat) :
  length (constraints (block_start d h sc k)) = 1 + d * 2.
Proof.
  unfold constraints, block_start.
  rewrite !flat_map_app, flat_map_map, flat_map_flat_map.
  rewrite (@flat_map_nil _ _ _ (Xc_of k d)) by reflexivity.
  rewrite !length_app.
  match goal with
  | |- context [flat_map ?F (seq 1 d)] =>
      rewrite (@flat_map_constant_length _ _ 2 F (seq 1 d)) by reflexivity
  end.
  rewrite length_seq. reflexivity.
Qed.

(** C3: in every interval [k < N] the loop first appends the new boundary
    state [X_{k+1}] to the variables and then the continuity row
    [Xk_end - X_{k+1}] with both bounds zero; it is row [1 + 2 d] of the
    interval, and [Xk_end] has the value
    [D[0] * X_k + sum over j = 1 .. d of D[j] * Xc_{k,j}]. *)
Theorem C3_continuity_row (N d : nat) (h : Qc) (sc : scheme) (k : nat) :
  k < N ->
  let Xk_end := end_state sc (boundary k) (Xc_of k d) d in
  let zero := [Fin 0%Qc; Fin 0%Qc; Fin 0%Qc] in
  (exists pre post,
      fst (formulate N d h sc)
      = pre
        ++ [NewVariable (boundary (k + 1)) x_lb x_ub x_guess;
            PlotX (boundary (k + 1));
            NewConstraint (Minus Xk_end (boundary (k + 1))) zero zero]
        ++ post
      /\ length (constraints pre) = k * (1 + d * 2 + 1) + (1 + d * 2))
  /\ nth_error (rows (assemble (fst (formulate N d h sc))))
               (k * (1 + d * 2 + 1) + (1 + d * 2))
     = Some (Minus Xk_end (boundary (k + 1)), (zero, zero))
  /\ forall (ODEeq : vec -> vec -> vec) (env : sym -> vec) (i : nat),
       denote ODEeq env Xk_end i
       = (nth 0 (D sc) 0%Qc * denote ODEeq env (boundary k) i
          + qsum (map (fun j => nth j (D sc) 0%Qc * denote ODEeq env (colloc k j) i)
                      (seq 1 d)))%Qc.
Proof.
  intros Hk Xk_end zero. subst Xk_end zero. split; [|split].
  - exists (events_before N d h sc k ++ block_start d h sc k),
           (block_final N k ++ events_after N d h sc k).
    split.
    + rewrite (events_split d h sc Hk).
      unfold block, block_start, block_final.
      unfold state_variable, constraint_event, continuity_row.
      cbn [fst snd]. rewrite <- !app_assoc. reflexivity.
    + rewrite constraints_app, length_app, length_constraints_before by exact Hk.
      f_equal. apply length_constraints_block_start.
  - rewrite interval_row_at by lia.
    unfold interval_rows. cbn [app nth_error Nat.add].
    rewrite nth_error_app2;
      rewrite flat_map_constant_length with (c := 2) by reflexivity;
      rewrite length_seq; [|lia].
    replace (d * 2 - d * 2) with 0 by lia. reflexivity.
  - intros. apply denote_end_state.
Qed.

Lemma sym_boundary_succ_inj (k k' : nat) :
  boundary (k + 1) = boundary k' -> k' = k + 1.
Proof.
  rewrite boundary_succ. destruct k' as [|k']; simpl; [discriminate|].
  intros H. injection H as H. lia.
Qed.

(** C7: in every interval [k < N] the path row at [(X_k, U_k)], bounded by
    [-inf] and [0], is appended before any collocation variable of that
    interval is created; the very last event appends one more path row, at
    [(X_N, U_{N-1})] with the same bounds; and no row at
    [(X_{k+1}, U_k)] exists for an interval [k] that is not the last.  In
    the lists [g], [lbg], [ubg] of the assembled NLP the row of interval [k]
    sits at index [k * (2 d + 2)] and the extra row is the last one, at
    index [N * (2 d + 2)], each with lower bound [-inf] and upper bound
    [0]. *)
Theorem C7_path_rows (N d : nat) (h : Qc) (sc : scheme) :
  let lower := [NegInf; NegInf; NegInf] in
  let upper := [Fin 0%Qc; Fin 0%Qc; Fin 0%Qc] in
  (forall k, k < N ->
     exists pre post,
       fst (formulate N d h sc)
       = pre ++ [NewConstraint (f_LT (boundary k) (control k)) lower upper] ++ post
       /\ length (constraints pre) = k * (1 + d * 2 + 1)
       /\ (forall j lb ub gs, ~ In (NewVariable (Sym (X_kj k j)) lb ub gs) pre)
       /\ (forall j, j < d ->
              In (NewVariable (Sym (X_kj k j)) x_lb x_ub x_guess) post))
  /\ (1 <= N ->
      exists pre,
        fst (formulate N d h sc)
        = pre ++ [NewConstraint (f_LT (boundary N) (control (N - 1))) lower upper])
  /\ (forall k, k + 1 < N ->
        forall b, ~ In (f_LT (boundary (k + 1)) (control k), b)
                       (rows (assemble (fst (formulate N d h sc)))))
  /\ (forall k, k < N ->
        nth_error (rows (assemble (fst (formulate N d h sc))))
                  (k * (1 + d * 2 + 1))
        = Some (f_LT (boundary k) (control k), (lower, upper)))
  /\ (1 <= N ->
        nth_error (rows (assemble (fst (formulate N d h sc))))
                  (N * (1 + d * 2 + 1))
        = Some (f_LT (boundary N) (control (N - 1)), (lower, upper))
        /\ length (rows (assemble (fst (formulate N d h sc))))
           = N * (1 + d * 2 + 1) + 1).
Proof.
  intros lower upper. subst lower upper. split; [|split; [|split; [|split]]].
  - intros k Hk.
    exists (events_before N d h sc k
            ++ [NewVariable (control k) u_lb u_ub u_guess; PlotU (control k)]),
           (skipn 3 (block N d h sc k) ++ events_after N d h sc k).
    split; [|split; [|split]].
    + rewrite (events_split d h sc Hk).
      unfold block, constraint_event, path_row. cbn [fst snd skipn app].
      rewrite <- !app_assoc. reflexivity.
    + rewrite constraints_app, length_app, length_constraints_before by exact Hk.
      cbn [constraints flat_map app length]. lia.
    + intros j lb ub gs Hin.
      apply in_app_or in Hin. destruct Hin as [Hin|Hin].
      * unfold events_before in Hin.
        apply in_app_or in Hin. destruct Hin as [Hin|Hin].
        -- destruct Hin as [Hin|[Hin|[]]]; discriminate.
        -- apply in_flat_map in Hin. destruct Hin as [k' [Hk' Hin]].
           apply in_seq in Hk'. apply new_variable_in_block in Hin.
           apply in_interval_variables in Hin.
           destruct Hin as [Hin|[[j' [_ Hin]]|Hin]]; try discriminate.
           injection Hin as Hkk _. lia.
      * destruct Hin as [Hin|[Hin|[]]]; discriminate.
    + intros j Hj. apply in_or_app. left.
      unfold block. cbn [skipn app]. apply in_or_app. left.
      unfold Xc_of. rewrite map_map.
      apply (in_map (fun j => state_variable (Sym (X_kj k j)))).
      apply in_seq. lia.
  - intros HN. destruct N as [|n]; [lia|].
    rewrite events_closed, seq_S, flat_map_app. cbn [flat_map Nat.add].
    rewrite app_nil_r. unfold block at 2.
    replace (Nat.eqb (n + 1) (S n)) with true
      by (symmetry; apply Nat.eqb_eq; lia).
    replace (S n - 1) with n by lia.
    replace (boundary (S n)) with (boundary (n + 1)) by (now rewrite Nat.add_1_r).
    exists ((initial_events ++ flat_map (block (S n) d h sc) (seq 0 n))
            ++ block_start d h sc n
            ++ [state_variable (boundary (n + 1)); PlotX (boundary (n + 1));
                constraint_event (continuity_row d sc n)]).
    unfold block_start, constraint_event, path_row. cbn [fst snd].
    rewrite <- !app_assoc. reflexivity.
  - intros k Hk b Hin.
    rewrite constraint_set_closed in Hin by lia.
    apply in_app_or in Hin. destruct Hin as [Hin|Hin].
    + apply in_flat_map in Hin. destruct Hin as [k' [Hk' Hin]].
      unfold interval_rows in Hin.
      apply in_app_or in Hin. destruct Hin as [Hin|Hin].
      * destruct Hin as [Hin|[]]. unfold path_row, control in Hin.
        injection Hin as Hx Hu _. subst k'.
        symmetry in Hx. apply sym_boundary_succ_inj in Hx. lia.
      * apply in_app_or in Hin. destruct Hin as [Hin|Hin].
        -- apply in_flat_map in Hin. destruct Hin as [j [_ Hin]].
           destruct Hin as [Hin|[Hin|[]]].
           ++ unfold defect_row in Hin. discriminate.
           ++ unfold path_row, colloc in Hin. rewrite boundary_succ in Hin.
              discriminate.
        -- destruct Hin as [Hin|[]]. unfold continuity_row in Hin. discriminate.
    + destruct Hin as [Hin|[]]. unfold path_row in Hin.
      injection Hin as Hx _. symmetry in Hx.
      apply sym_boundary_succ_inj in Hx. lia.
  - intros k Hk.
    replace (k * (1 + d * 2 + 1)) with (k * (1 + d * 2 + 1) + 0) by lia.
    rewrite interval_row_at by lia. reflexivity.
  - intros HN.
    assert (Hlen : length (flat_map (interval_rows d h sc) (seq 0 N))
                   = N * (1 + d * 2 + 1)).
    { rewrite flat_map_constant_length with (c := 1 + d * 2 + 1)
        by (intros; apply length_interval_rows).
      rewrite length_seq. lia. }
    rewrite constraint_set_closed by exact HN. split.
    + rewrite nth_error_app2 by (rewrite Hlen; lia).
      rewrite Hlen, Nat.sub_diag. reflexivity.
    + rewrite length_app, Hlen. reflexivity.
Qed.

(** *** Alignment of the bound lists *)

Lemma total_dim_snoc (l : list MX) (v : MX) :
  total_dim (l ++ [v]) = total_dim l + dim v.
Proof.
  unfold total_dim. rewrite map_app, list_sum_app. simpl. lia.
Qed.

Lemma total_length_snoc (A : Type) (l : list (list A)) (x : list A) :
  total_length (l ++ [x]) = total_length l + length x.
Proof.
  unfold total_length. rewrite concat_app, length_app. simpl.
  now rewrite app_nil_r.
Qed.

(** One append of a variable or of a constraint keeps the lists aligned. *)
Lemma append_aligned (p : nlp) (e : event) :
  well_sized e -> aligned p -> aligned (append p e).
Proof.
  unfold aligned. intros He (H1 & H2 & H3 & H4 & H5).
  destruct e as [v lb ub gs|c lb ub|v|v]; cbn [append w lbw ubw w0 g lbg ubg];
    cbn [well_sized] in He.
  - destruct He as (Hl & Hu & Hg).
    rewrite !total_length_snoc, total_dim_snoc. repeat split; lia.
  - destruct He as (Hl & Hu).
    rewrite !total_length_snoc, total_dim_snoc. repeat split; lia.
  - repeat split; assumption.
  - repeat split; assumption.
Qed.

Lemma assemble_aligned (ev : list event) :
  Forall well_sized ev -> aligned (assemble ev).
Proof.
  induction ev as [|e ev IH] using rev_ind; intros H.
  - unfold aligned. repeat split; reflexivity.
  - apply Forall_app in H. destruct H as [Hev He].
    unfold assemble. rewrite fold_left_app. cbn [fold_left].
    apply append_aligned; [now inversion He | now apply IH].
Qed.

Lemma Forall_firstn (A : Type) (P : A -> Prop) (n : nat) (l : list A) :
  Forall P l -> Forall P (firstn n l).
Proof.
  revert n. induction l as [|a l IH]; intros [|n] H; simpl; auto.
  inversion H; subst. constructor; auto.
Qed.

Lemma dim_fold_plus (c : nat -> Qc) (x : nat -> MX) (l : list nat) :
  forall e0, dim (fold_left (fun acc r => Plus acc (Scale (c r) (x r))) l e0) = dim e0.
Proof.
  induction l as [|r l IH]; intros e0; simpl; [reflexivity|].
  now rewrite IH.
Qed.

Lemma dim_boundary (k : nat) : dim (boundary k) = 3.
Proof. destruct k; reflexivity. Qed.

Ltac split_Forall_app :=
  match goal with
  | |- Forall _ (_ ++ _) => apply Forall_app; split
  end.

Lemma block_well_sized (N d : nat) (h : Qc) (sc : scheme) (k : nat) :
  Forall well_sized (block N d h sc k).
Proof.
  unfold block. repeat split_Forall_app.
  - repeat constructor.
  - repeat constructor.
  - apply Forall_forall. intros e He. apply in_map_iff in He.
    destruct He as [v [<- Hv]]. unfold Xc_of in Hv. apply in_map_iff in Hv.
    destruct Hv as [j [<- _]]. repeat split.
  - apply Forall_flat_map, Forall_forall. intros j _. repeat constructor.
  - repeat constructor; cbn [well_sized]; rewrite dim_boundary; repeat split.
  - repeat constructor; cbn [well_sized constraint_event continuity_row fst snd dim].
    + unfold end_state.
      rewrite (@dim_fold_plus (fun j => nth j (D sc) 0%Qc)
                 (fun j => item (Xc_of k d) (j - 1))).
      cbn [dim]. now rewrite dim_boundary.
    + unfold end_state.
      rewrite (@dim_fold_plus (fun j => nth j (D sc) 0%Qc)
                 (fun j => item (Xc_of k d) (j - 1))).
      cbn [dim]. now rewrite dim_boundary.
  - destruct (Nat.eqb (k + 1) N); repeat constructor.
Qed.

Lemma events_well_sized (N d : nat) (h : Qc) (sc : scheme) :
  Forall well_sized (fst (formulate N d h sc)).
Proof.
  rewrite events_closed. apply Forall_app. split.
  - repeat constructor.
  - apply Forall_flat_map, Forall_forall. intros k _. apply block_well_sized.
Qed.

(** C10: after every append of a variable or of a constraint (that is,
    after every prefix of the events of the assembly, the whole run
    included) [lbw], [ubw] and [w0] hold as many scalars as [w], and [lbg]
    and [ubg] as many as [g]. *)
Theorem C10_bound_lists_stay_aligned (N d : nat) (h : Qc) (sc : scheme) (n : nat) :
  let p := assemble (firstn n (fst (formulate N d h sc))) in
  let q := assemble (fst (formulate N d h sc)) in
  (total_length (lbw p) = total_dim (w p)
   /\ total_length (ubw p) = total_dim (w p)
   /\ total_length (w0 p) = total_dim (w p)
   /\ total_length (lbg p) = total_dim (g p)
   /\ total_length (ubg p) = total_dim (g p))
  /\ (length (concat (lbw q)) = total_dim (w q)
      /\ length (concat (ubw q)) = total_dim (w q)
      /\ length (concat (w0 q)) = total_dim (w q)
      /\ length (concat (lbg q)) = total_dim (g q)
      /\ length (concat (ubg q)) = total_dim (g q)).
Proof.
  intros p q. split.
  - apply (assemble_aligned (Forall_firstn n (events_well_sized N d h sc))).
  - apply (assemble_aligned (events_well_sized N d h sc)).
Qed.

(** *** The variables and the plotted symbols *)

Lemma w_closed (N d : nat) (h : Qc) (sc : scheme) :
  w (assemble (fst (formulate N d h sc)))
  = Sym X0 :: flat_map (interval_variables d) (seq 0 N).
Proof.
  destruct (assemble_fields (fst (formulate N d h sc))) as (-> & _).
  rewrite events_closed, flat_map_app, flat_map_flat_map.
  cbn [initial_events flat_map new_w app]. f_equal.
  apply flat_map_agree. intros k _. apply new_w_block.
Qed.

Lemma x_plot_closed (N d : nat) (h : Qc) (sc : scheme) :
  x_plot (assemble (fst (formulate N d h sc))) = map boundary (seq 0 (N + 1)).
Proof.
  destruct (assemble_fields (fst (formulate N d h sc)))
    as (_ & _ & _ & _ & _ & _ & _ & -> & _).
  rewrite events_closed, flat_map_app, flat_map_flat_map.
  cbn [initial_events flat_map new_x_plot app].
  rewrite Nat.add_1_r. cbn [seq map boundary]. f_equal.
  rewrite <- seq_shift, map_map.
  rewrite (@flat_map_agree _ _ _ (fun k => [boundary (S k)]))
    by (intros k _; rewrite new_x_plot_block; now rewrite Nat.add_1_r).
  apply flat_map_single.
Qed.

Lemma u_plot_closed (N d : nat) (h : Qc) (sc : scheme) :
  u_plot (assemble (fst (formulate N d h sc))) = map control (seq 0 N).
Proof.
  destruct (assemble_fields (fst (formulate N d h sc)))
    as (_ & _ & _ & _ & _ & _ & _ & _ & ->).
  rewrite events_closed, flat_map_app, flat_map_flat_map.
  cbn [initial_events flat_map new_u_plot app].
  rewrite (@flat_map_agree _ _ _ (fun k => [control k]))
    by (intros k _; apply new_u_plot_block).
  apply flat_map_single.
Qed.

Lemma bounds_head (N d : nat) (h : Qc) (sc : scheme) :
  exists L U,
    lbw (assemble (fst (formulate N d h sc))) = x0_fixed :: L
    /\ ubw (assemble (fst (formulate N d h sc))) = x0_fixed :: U.
Proof.
  destruct (assemble_fields (fst (formulate N d h sc)))
    as (_ & -> & -> & _).
  rewrite events_closed, !flat_map_app.
  cbn [initial_events flat_map new_lbw new_ubw app].
  eexists _, _. split; reflexivity.
Qed.

Lemma sym_eqb_eq (a b : sym) : sym_eqb a b = true <-> a = b.
Proof.
  destruct a, b; simpl; split; intros H; try discriminate; try reflexivity.
  - apply Nat.eqb_eq in H. now subst.
  - injection H as ->. apply Nat.eqb_refl.
  - apply andb_true_iff in H. destruct H as [H1 H2].
    apply Nat.eqb_eq in H1, H2. now subst.
  - injection H as -> ->. now rewrite !Nat.eqb_refl.
  - apply Nat.eqb_eq in H. now subst.
  - injection H as ->. apply Nat.eqb_refl.
Qed.

(** Entries held between equal bounds are those bounds. *)
Lemma pinned_prefix (a : list Qc) :
  forall (L U wv : list Qc),
    Forall2 Qcle (a ++ L) wv -> Forall2 Qcle wv (a ++ U) ->
    firstn (length a) wv = a.
Proof.
  induction a as [|a0 a IH]; intros L U wv Hl Hu; [reflexivity|].
  cbn [app] in Hl, Hu. inversion Hl as [|? y ? wv' Hle Hl']; subst.
  inversion Hu as [|? ? ? ? Hge Hu']; subst.
  cbn [length firstn]. f_equal.
  - apply Qcle_antisym; assumption.
  - apply (IH L U); assumption.
Qed.

(** C6: the first decision variable is the initial state [X0]; its
    lower-bound block and its upper-bound block are both
    [[0.27, 765., 0.0]]; and for every decision vector within the assembled
    variable bounds the first column of the state trajectory is that
    vector. *)
Theorem C6_initial_state_pinned (N d : nat) (h : Qc) (sc : scheme) :
  let p := assemble (fst (formulate N d h sc)) in
  let x0 := [qc 27 100; qc 765 1; 0%Qc] in
  nth_error (w p) 0 = Some (Sym X0)
  /\ nth_error (lbw p) 0 = Some x0
  /\ nth_error (ubw p) 0 = Some x0
  /\ forall wv : list Qc,
       Forall2 Qcle (concat (lbw p)) wv -> Forall2 Qcle wv (concat (ubw p)) ->
       nth_error (fst (trajectories p wv)) 0 = Some x0.
Proof.
  intros p x0. subst p x0.
  destruct (bounds_head N d h sc) as (L & U & HL & HU).
  rewrite HL, HU, w_closed. repeat split.
  intros wv Hl Hu. unfold trajectories. rewrite w_closed, x_plot_closed.
  rewrite Nat.add_1_r. cbn [seq map boundary fst nth_error bind_w column lookup sym_eqb].
  f_equal. cbn [concat] in Hl, Hu.
  apply (@pinned_prefix x0_fixed (concat L) (concat U) wv Hl Hu).
Qed.

(** *** Reading a decision vector along [w] *)

Lemma bind_w_sym (s : sym) (w' : list MX) (v rest : list Qc) :
  length v = sym_dim s ->
  bind_w (Sym s :: w') (v ++ rest) = (s, v) :: bind_w w' rest.
Proof.
  intros Hv. cbn [bind_w]. rewrite <- Hv.
  rewrite firstn_app, skipn_app, firstn_all, skipn_all, Nat.sub_diag.
  cbn [firstn skipn app]. now rewrite app_nil_r.
Qed.

Lemma bind_w_symbols (s : nat -> sym) (v : nat -> list Qc) (l : list nat)
    (w' : list MX) (rest : list Qc) :
  (forall j, In j l -> length (v j) = sym_dim (s j)) ->
  bind_w (map (fun j => Sym (s j)) l ++ w') (flat_map v l ++ rest)
  = map (fun j => (s j, v j)) l ++ bind_w w' rest.
Proof.
  induction l as [|j l IH]; intros H; [reflexivity|].
  cbn [map flat_map app]. rewrite <- app_assoc.
  rewrite bind_w_sym by (apply H; now left).
  f_equal. apply IH. intros j' Hj'. apply H. now right.
Qed.

Section Layout.

Variables (N d : nat) (x u : nat -> list Qc) (xc : nat -> nat -> list Qc).
Hypothesis length_x : forall k, length (x k) = nd.
Hypothesis length_u : forall k, length (u k) = nu.
Hypothesis length_xc : forall k j, length (xc k j) = nd.

Lemma bind_w_interval (k : nat) (w' : list MX) (rest : list Qc) :
  bind_w (interval_variables d k ++ w')
         ((u k ++ flat_map (xc k) (seq 1 d) ++ x (k + 1)) ++ rest)
  = interval_bindings d x u xc k ++ bind_w w' rest.
Proof.
  unfold interval_variables, interval_bindings, control, Xc_of.
  rewrite boundary_succ. cbn [app]. rewrite <- !app_assoc.
  rewrite bind_w_sym by apply length_u. f_equal.
  rewrite <- seq_shift, flat_map_map.
  rewrite (@bind_w_symbols (X_kj k) (fun j => xc k (S j)))
    by (intros; apply length_xc).
  f_equal. cbn [app]. rewrite bind_w_sym by apply length_x. reflexivity.
Qed.

Lemma bind_w_intervals (l : list nat) :
  bind_w (flat_map (interval_variables d) l)
         (flat_map (fun k => u k ++ flat_map (xc k) (seq 1 d) ++ x (k + 1)) l)
  = flat_map (interval_bindings d x u xc) l.
Proof.
  induction l as [|k l IH]; [reflexivity|].
  cbn [flat_map]. rewrite bind_w_interval, IH. reflexivity.
Qed.

Lemma bind_w_decision_vector :
  bind_w (Sym X0 :: flat_map (interval_variables d) (seq 0 N))
         (decision_vector N d x u xc)
  = bindings N d x u xc.
Proof.
  unfold decision_vector, bindings.
  rewrite bind_w_sym by apply length_x. f_equal. apply bind_w_intervals.
Qed.

End Layout.

Lemma map_add_seq (a s n : nat) : map (fun j => a + j) (seq s n) = seq (a + s) n.
Proof.
  revert s. induction n as [|n IH]; intros s; [reflexivity|].
  cbn [seq map]. rewrite IH. f_equal. f_equal. lia.
Qed.

Lemma seq_ends (a n : nat) : seq a (n + 2) = a :: seq (a + 1) n ++ [a + 1 + n].
Proof.
  replace (n + 2) with (S (S n)) by lia. cbn [seq]. f_equal.
  rewrite Nat.add_1_r. apply (seq_S n (S a)).
Qed.

(** Rank is the position in [w]: no symbol is created twice. *)
Lemma rank_interval_symbols (d k : nat) :
  map (rank d) (interval_symbols d k) = seq (k * (d + 2) + 1) (d + 2).
Proof.
  unfold interval_symbols. cbn [map]. rewrite map_app, map_map. cbn [map rank].
  rewrite seq_ends. f_equal. f_equal.
  - rewrite (map_add_seq (k * (d + 2) + 2) 0 d). f_equal. lia.
  - f_equal. lia.
Qed.

Lemma rank_symbols (N d : nat) :
  map (rank d) (symbols N d) = seq 0 (1 + N * (d + 2)).
Proof.
  unfold symbols. cbn [map rank Nat.add seq]. f_equal.
  induction N as [|n IH]; [reflexivity|].
  rewrite seq_S, flat_map_app, map_app, IH. cbn [flat_map Nat.add].
  rewrite app_nil_r, rank_interval_symbols.
  replace (S n * (d + 2)) with (n * (d + 2) + (d + 2)) by lia.
  rewrite (seq_app (n * (d + 2)) (d + 2) 1). f_equal. f_equal. lia.
Qed.

Lemma symbols_NoDup (N d : nat) : NoDup (symbols N d).
Proof.
  apply (NoDup_map_inv (rank d)). rewrite rank_symbols. apply seq_NoDup.
Qed.

Lemma fst_bindings (N d : nat) (x u : nat -> list Qc) (xc : nat -> nat -> list Qc) :
  map fst (bindings N d x u xc) = symbols N d.
Proof.
  unfold bindings, symbols. cbn [map fst]. f_equal.
  induction (seq 0 N) as [|k l IH]; [reflexivity|].
  cbn [flat_map]. rewrite map_app, IH. f_equal.
  unfold interval_bindings, interval_symbols. cbn [map fst].
  rewrite map_app, map_map. reflexivity.
Qed.

Lemma lookup_in (b : list (sym * list Qc)) (s : sym) (v : list Qc) :
  NoDup (map fst b) -> In (s, v) b -> lookup b s = v.
Proof.
  induction b as [|[s' v'] b IH]; intros Hnd Hin; [contradiction|].
  cbn [map fst] in Hnd. inversion Hnd as [|? ? Hnin Hnd']; subst.
  cbn [lookup]. destruct (sym_eqb s' s) eqn:E.
  - apply sym_eqb_eq in E. subst s'.
    destruct Hin as [Hin|Hin]; [now injection Hin|].
    elim Hnin. apply (in_map fst) in Hin. exact Hin.
  - destruct Hin as [Hin|Hin].
    + injection Hin as -> _.
      assert (sym_eqb s s = true) by now apply sym_eqb_eq.
      congruence.
    + now apply IH.
Qed.

Lemma lookup_boundary (N d : nat) (x u : nat -> list Qc) (xc : nat -> nat -> list Qc)
    (k : nat) :
  k <= N -> column (bindings N d x u xc) (boundary k) = x k.
Proof.
  intros Hk. destruct k as [|k].
  - cbn [boundary column bindings lookup sym_eqb]. reflexivity.
  - cbn [boundary column]. apply lookup_in.
    + rewrite fst_bindings. apply symbols_NoDup.
    + right. apply in_flat_map. exists k. split; [apply in_seq; lia|].
      unfold interval_bindings. right. apply in_or_app. right.
      rewrite Nat.add_1_r. now left.
Qed.

Lemma lookup_control (N d : nat) (x u : nat -> list Qc) (xc : nat -> nat -> list Qc)
    (k : nat) :
  k < N -> column (bindings N d x u xc) (control k) = u k.
Proof.
  intros Hk. cbn [control column]. apply lookup_in.
  - rewrite fst_bindings. apply symbols_NoDup.
  - right. apply in_flat_map. exists k. split; [apply in_seq; lia|].
    now left.
Qed.

(** C5: the variables of the NLP are, in order,
    [X_0, U_0, Xc_{0,1..d}, X_1, U_1, Xc_{1,1..d}, ..., X_N]; and on a
    decision vector laid out that way from blocks [x k] (of [nd] entries),
    [u k] (of [nu]) and [xc k j] (of [nd]) the extractor returns the
    [N + 1] columns [x 0 .. x N] and the [N] columns [u 0 .. u (N-1)], in
    that order. *)
Theorem C5_layout_and_extraction (N d : nat) (h : Qc) (sc : scheme)
    (x u : nat -> list Qc) (xc : nat -> nat -> list Qc) :
  (forall k, length (x k) = nd) ->
  (forall k, length (u k) = nu) ->
  (forall k j, length (xc k j) = nd) ->
  let p := assemble (fst (formulate N d h sc)) in
  let traj := trajectories p (decision_vector N d x u xc) in
  w p = boundary 0
        :: flat_map (fun k => control k :: map (colloc k) (seq 1 d)
                              ++ [boundary (k + 1)]) (seq 0 N)
  /\ fst traj = map x (seq 0 (N + 1))
  /\ snd traj = map u (seq 0 N)
  /\ length (fst traj) = N + 1 /\ Forall (fun c => length c = nd) (fst traj)
  /\ length (snd traj) = N /\ Forall (fun c => length c = nu) (snd traj).
Proof.
  intros Hx Hu Hxc p traj.
  assert (Hw : w p = boundary 0
                     :: flat_map (fun k => control k :: map (colloc k) (seq 1 d)
                                           ++ [boundary (k + 1)]) (seq 0 N)).
  { subst p. rewrite w_closed. cbn [boundary]. f_equal.
    apply flat_map_agree. intros k _. unfold interval_variables, Xc_of.
    rewrite <- seq_shift, map_map. f_equal. f_equal.
    apply map_ext. intros j. unfold colloc. cbn [Nat.sub]. now rewrite Nat.sub_0_r. }
  assert (Hfst : fst traj = map x (seq 0 (N + 1))).
  { subst traj p. unfold trajectories. cbn [fst].
    rewrite w_closed, x_plot_closed, bind_w_decision_vector by assumption.
    rewrite map_map. apply map_ext_in. intros k Hk. apply in_seq in Hk.
    apply lookup_boundary. lia. }
  assert (Hsnd : snd traj = map u (seq 0 N)).
  { subst traj p. unfold trajectories. cbn [snd].
    rewrite w_closed, u_plot_closed, bind_w_decision_vector by assumption.
    rewrite map_map. apply map_ext_in. intros k Hk. apply in_seq in Hk.
    apply lookup_control. lia. }
  split; [exact Hw|]. split; [exact Hfst|]. split; [exact Hsnd|].
  rewrite Hfst, Hsnd, !length_map, !length_seq.
  repeat split; apply Forall_forall; intros c Hc; apply in_map_iff in Hc;
    destruct Hc as [k [<- _]]; auto.
Qed.

(** *** The objective *)

Lemma J_rounds (N d : nat) (h : Qc) (sc : scheme) (n : nat) :
  J (snd (rounds N d h sc n)) = objective_after N n.
Proof. now rewrite rounds_closed. Qed.

Lemma positive_test (k : nat) : 0 < k -> (Z.of_nat k >? 0)%Z = true.
Proof.
  intros Hk. destruct k as [|k]; [lia | reflexivity].
Qed.

Lemma denote_previous_control (ODEeq : vec -> vec -> vec) (env : sym -> vec) (k : nat) :
  denote ODEeq env (previous_control k) = previous_value env k.
Proof. destruct k; reflexivity. Qed.

Lemma value_rate (ODEeq : vec -> vec -> vec) (env : sym -> vec) (k : nat)
    (i : nat) (a b : Qc) :
  i < 2 ->
  value ODEeq env (rate (control k) (previous_control k) (Z.of_nat i) a b)
  = (((env (U_ k) i - previous_value env k i) * a / b) ^ 2)%Qc.
Proof.
  intros Hi. unfold rate. cbn [value].
  rewrite denote_previous_control. cbn [denote control].
  assert (Hidx : forall n, index n (Z.of_nat i) = i).
  { intros n. unfold index.
    replace (Z.of_nat i <? 0)%Z with false by (symmetry; apply Z.ltb_ge; lia).
    apply Nat2Z.id. }
  now rewrite !Hidx.
Qed.

(** C4 (as the code behaves): on an interval [k] with [0 < k < N - 1] the
    objective gains only the control-rate penalty against [U_{k-1}]; on the
    final interval [k = N - 1] it gains that penalty and the terminal terms
    [4 * X_N[last] - 1e-3 * X_N[1]]; on the first interval it gains nothing
    when [N >= 2].  When [N = 1] the first interval is the final one, and the
    second case applies, with the penalty taken against the initial
    [Uk_prev = [0.001, 100]]. *)
Theorem C4_objective_contributions (N d : nat) (h : Qc) (sc : scheme)
    (ODEeq : vec -> vec -> vec) (env : sym -> vec) (k : nat) :
  k < N ->
  let J_before := value ODEeq env (J (snd (rounds N d h sc k))) in
  let J_after := value ODEeq env (J (snd (rounds N d h sc (k + 1)))) in
  let Uk := env (U_ k) in
  let Uprev := previous_value env k in
  let XN := env (X_ (k + 1)) in
  let penalty0 := (((Uk 0%nat - Uprev 0%nat) * qc 4 1 / qc 10 1) ^ 2)%Qc in
  let penalty1 := (((Uk 1%nat - Uprev 1%nat) * qc 9 1 / qc 1000 1) ^ 2)%Qc in
  (0 < k -> k < N - 1 ->
     Uprev = env (U_ (k - 1))
     /\ J_after = (J_before - penalty0 - penalty1)%Qc)
  /\ (k = N - 1 ->
      J_after = (J_before + qc 4 1 * XN 2%nat - qc 1 1000 * XN 1%nat
                 - penalty0 - penalty1)%Qc)
  /\ (k = 0 -> 2 <= N ->
      J (snd (rounds N d h sc (k + 1))) = J (snd (rounds N d h sc k))).
Proof.
  intros Hk J_before J_after Uk Uprev XN penalty0 penalty1.
  subst J_before J_after Uk Uprev XN penalty0 penalty1.
  rewrite !J_rounds. rewrite Nat.add_1_r. cbn [objective_after].
  unfold objective. rewrite final_test.
  split; [|split].
  - intros Hpos Hlast.
    replace (Nat.eqb (k + 1) N) with false by (symmetry; apply Nat.eqb_neq; lia).
    rewrite positive_test by exact Hpos.
    split.
    + destruct k as [|k']; [lia|]. cbn [previous_value]. f_equal. f_equal. lia.
    + cbn [value].
      rewrite (@value_rate ODEeq env k 0) by lia.
      rewrite (@value_rate ODEeq env k 1) by lia.
      reflexivity.
  - intros Hlast.
    replace (Nat.eqb (k + 1) N) with true by (symmetry; apply Nat.eqb_eq; lia).
    cbn [value].
    rewrite (@value_rate ODEeq env k 0) by lia.
    rewrite (@value_rate ODEeq env k 1) by lia.
    rewrite boundary_succ, Nat.add_1_r. reflexivity.
  - intros Hk0 HN. subst k.
    replace (Nat.eqb (0 + 1) N) with false by (symmetry; apply Nat.eqb_neq; lia).
    reflexivity.
Qed.

(** C4 as stated fails for [N = 1]: the only interval is the first one, and
    the objective gains [4] on it at the sample values. *)
Lemma C4_counterexample :
  value sample_ODEeq sample_env (J (snd (rounds 1 5 (qc 144 1) (zeros 5) 1)))
  <> value sample_ODEeq sample_env (J (snd (rounds 1 5 (qc 144 1) (zeros 5) 0))).
Proof.
  intro H. apply (f_equal this) in H. vm_compute in H. discriminate.
Qed.

Lemma all_le_sound (a b : list Qc) : all_le a b = true -> Forall2 Qcle a b.
Proof.
  revert b. induction a as [|x a IH]; intros [|y b] H; try discriminate.
  - constructor.
  - cbn [all_le] in H. apply andb_true_iff in H. destruct H as [Hxy Hab].
    constructor; [|now apply IH].
    unfold Qcle. now apply Qle_bool_iff.
Qed.

(** *** The script as a whole *)

(** With at least one interval and pairwise distinct nodes the script
    reaches the solver with finite coefficients. *)
Lemma offline_nlp_finite (N d : nat) (pts : list Qc) :
  1 <= N -> length pts = d -> NoDup (tau_root pts) ->
  exists sc,
    build d (tau_root pts) = Finite sc
    /\ offline_nlp N d pts
       = Finite (assemble (fst (formulate N d (T / of_nat N)%Qc sc)),
                 J (snd (formulate N d (T / of_nat N)%Qc sc))).
Proof.
  intros HN Hlen Hnd.
  destruct (@BasisFacts.build_finite d (tau_root pts)) as [sc Hsc];
    [simpl; lia | exact Hnd |].
  exists sc. split; [exact Hsc|].
  unfold offline_nlp, width.
  destruct N as [|n]; [lia|]. cbn [Nat.eqb bind]. rewrite Hsc. cbn [bind].
  destruct (formulate (S n) d (T / of_nat (S n))%Qc sc). reflexivity.
Qed.

Lemma offline_nlp_no_interval (d : nat) (pts : list Qc) :
  offline_nlp 0 d pts = Raised.
Proof. reflexivity. Qed.

(** *** The theorems at the values of the script, and at small ones *)

Lemma C1_witness :
  1 <= 6 /\
  length (g (assemble (fst (formulate 6 5 (qc 24 1) (zeros 5))))) = 73.
Proof.
  assert (H : 1 <= 6) by lia.
  split; [exact H|].
  exact (proj1 (proj2 (@C1_constraint_blocks_in_order 6 5 (qc 24 1) (zeros 5) H))).
Defined.

Lemma C2_witness :
  1 < 2 /\ 1 <= 2 <= 2 /\
  nth_error (rows (assemble (fst (formulate 2 2 (qc 72 1) (zeros 2))))) 10
  = Some (f_LT (colloc 1 2) (control 1),
          ([NegInf; NegInf; NegInf], [Fin 0%Qc; Fin 0%Qc; Fin 0%Qc])).
Proof.
  assert (Hk : 1 < 2) by lia.
  assert (Hj : 1 <= 2 <= 2) by lia.
  split; [exact Hk|]. split; [exact Hj|].
  exact (proj1 (proj2 (@C2_defect_and_path_rows 2 2 (qc 72 1) (zeros 2) 1 2 Hk Hj))).
Defined.

Lemma C3_witness :
  1 < 2 /\
  nth_error (rows (assemble (fst (formulate 2 2 (qc 72 1) (zeros 2))))) 11
  = Some (Minus (end_state (zeros 2) (boundary 1) (Xc_of 1 2) 2) (boundary 2),
          ([Fin 0%Qc; Fin 0%Qc; Fin 0%Qc], [Fin 0%Qc; Fin 0%Qc; Fin 0%Qc])).
Proof.
  assert (Hk : 1 < 2) by lia.
  split; [exact Hk|].
  exact (proj1 (proj2 (@C3_continuity_row 2 2 (qc 72 1) (zeros 2) 1 Hk))).
Defined.

Lemma C4_witness :
  0 < 6 /\ 2 <= 6 /\
  J (snd (rounds 6 5 (qc 24 1) (zeros 5) (0 + 1)))
  = J (snd (rounds 6 5 (qc 24 1) (zeros 5) 0)).
Proof.
  assert (Hk : 0 < 6) by lia.
  assert (HN : 2 <= 6) by lia.
  split; [exact Hk|]. split; [exact HN|].
  exact (proj2 (proj2 (@C4_objective_contributions 6 5 (qc 24 1) (zeros 5)
                         sample_ODEeq sample_env 0 Hk)) eq_refl HN).
Defined.

Lemma C5_witness :
  (forall k : nat, length ((fun _ => x_guess) k) = nd)
  /\ (forall k : nat, length ((fun _ => u_guess) k) = nu)
  /\ (forall k j : nat, length ((fun _ _ => x_guess) k j) = nd)
  /\ fst (trajectories (assemble (fst (formulate 6 5 (qc 24 1) (zeros 5))))
            (decision_vector 6 5 (fun _ => x_guess) (fun _ => u_guess)
                             (fun _ _ => x_guess)))
     = map (fun _ => x_guess) (seq 0 (6 + 1)).
Proof.
  assert (Hx : forall k : nat, length ((fun _ => x_guess) k) = nd)
    by (intro; reflexivity).
  assert (Hu : forall k : nat, length ((fun _ => u_guess) k) = nu)
    by (intro; reflexivity).
  assert (Hxc : forall k j : nat, length ((fun _ _ => x_guess) k j) = nd)
    by (intros; reflexivity).
  split; [exact Hx|]. split; [exact Hu|]. split; [exact Hxc|].
  exact (proj1 (proj2 (@C5_layout_and_extraction 6 5 (qc 24 1) (zeros 5)
                         (fun _ => x_guess) (fun _ => u_guess)
                         (fun _ _ => x_guess) Hx Hu Hxc))).
Defined.

Lemma C6_witness :
  let p := assemble (fst (formulate 1 1 (qc 144 1) (zeros 1))) in
  Forall2 Qcle (concat (lbw p)) sample_vector
  /\ Forall2 Qcle sample_vector (concat (ubw p))
  /\ nth_error (fst (trajectories p sample_vector)) 0
     = Some [qc 27 100; qc 765 1; 0%Qc].
Proof.
  intros p.
  assert (Hl : Forall2 Qcle (concat (lbw p)) sample_vector)
    by (apply all_le_sound; vm_compute; reflexivity).
  assert (Hu : Forall2 Qcle sample_vector (concat (ubw p)))
    by (apply all_le_sound; vm_compute; reflexivity).
  split; [exact Hl|]. split; [exact Hu|].
  exact (proj2 (proj2 (proj2 (@C6_initial_state_pinned 1 1 (qc 144 1) (zeros 1))))
           sample_vector Hl Hu).
Defined.

Lemma C7_witness :
  1 <= 6 /\
  exists pre,
    fst (formulate 6 5 (qc 24 1) (zeros 5))
    = pre ++ [NewConstraint (f_LT (boundary 6) (control (6 - 1)))
                            [NegInf; NegInf; NegInf]
                            [Fin 0%Qc; Fin 0%Qc; Fin 0%Qc]].
Proof.
  assert (HN : 1 <= 6) by lia.
  split; [exact HN|].
  exact (proj1 (proj2 (@C7_path_rows 6 5 (qc 24 1) (zeros 5))) HN).
Defined.

End TranscribeFacts.

(** * The NLP as a whole *)

Module NlpFacts.
Import Poly Basis BasisSpec Expr Transcribe TranscribeSpec NlpSpec.
Import ListFacts TranscribeFacts BasisFacts.
Local Open Scope nat_scope.

(** *** Sizes *)

Lemma list_sum_constant (A : Type) (f : A -> nat) (c : nat) (l : list A) :
  (forall a, In a l -> f a = c) -> list_sum (map f l) = length l * c.
Proof.
  induction l as [|a l IH]; intros H; simpl; [reflexivity|].
  rewrite H by now left. rewrite IH; [lia|]. intros b Hb. apply H. now right.
Qed.

Lemma total_dim_app (a b : list MX) : total_dim (a ++ b) = total_dim a + total_dim b.
Proof. unfold total_dim. now rewrite map_app, list_sum_app. Qed.

Lemma total_dim_flat_map (A : Type) (f : A -> list MX) (c : nat) (l : list A) :
  (forall a, In a l -> total_dim (f a) = c) ->
  total_dim (flat_map f l) = length l * c.
Proof.
  induction l as [|a l IH]; intros H; simpl; [reflexivity|].
  rewrite total_dim_app, H by now left. rewrite IH; [lia|].
  intros b Hb. apply H. now right.
Qed.

Lemma total_dim_Xc_of (k d : nat) : total_dim (Xc_of k d) = 3 * d.
Proof.
  unfold total_dim, Xc_of. rewrite map_map.
  rewrite list_sum_constant with (c := 3) by reflexivity.
  rewrite length_seq. lia.
Qed.

Lemma total_dim_interval_variables (d k : nat) :
  total_dim (interval_variables d k) = stride d.
Proof.
  unfold interval_variables, stride.
  change (control k :: Xc_of k d ++ [boundary (k + 1)])
    with ([control k] ++ Xc_of k d ++ [boundary (k + 1)]).
  rewrite !total_dim_app, total_dim_Xc_of.
  unfold total_dim. simpl. rewrite dim_boundary. lia.
Qed.

Lemma g_assemble (ev : list event) : g (assemble ev) = map fst (constraints ev).
Proof.
  destruct (assemble_fields ev) as (_ & _ & _ & _ & -> & _).
  induction ev as [|e ev IH]; [reflexivity|].
  destruct e; simpl; rewrite ?IH; reflexivity.
Qed.

Lemma dim_interval_rows (d : nat) (h : Qc) (sc : scheme) (k : nat) :
  Forall (fun r => dim (fst r) = 3) (interval_rows d h sc k).
Proof.
  unfold interval_rows. repeat split_Forall_app.
  - repeat constructor.
  - apply Forall_flat_map, Forall_forall. intros j _. repeat constructor.
  - repeat constructor. cbn [continuity_row fst dim]. unfold end_state.
    rewrite (@dim_fold_plus (fun j => nth j (D sc) 0%Qc)
               (fun j => item (Xc_of k d) (j - 1))).
    cbn [dim]. apply dim_boundary.
Qed.

(** X6: the NLP for [N] intervals of degree [d] has [1 + N (d + 2)]
    variable blocks holding [3 + N (3 d + 5)] scalars, with as many lower
    bounds, upper bounds and initial guesses; and for [N >= 1] its
    [N (2 d + 2) + 1] constraint blocks hold three scalars each. *)
Theorem nlp_sizes (N d : nat) (h : Qc) (sc : scheme) :
  let p := assemble (fst (formulate N d h sc)) in
  length (w p) = 1 + N * (d + 2)
  /\ total_dim (w p) = 3 + N * (3 * d + 5)
  /\ length (concat (lbw p)) = 3 + N * (3 * d + 5)
  /\ length (concat (ubw p)) = 3 + N * (3 * d + 5)
  /\ length (concat (w0 p)) = 3 + N * (3 * d + 5)
  /\ (1 <= N ->
      Forall (fun c => dim c = 3) (g p)
      /\ total_dim (g p) = 3 * (N * (2 * d + 2) + 1)
      /\ length (concat (lbg p)) = 3 * (N * (2 * d + 2) + 1)
      /\ length (concat (ubg p)) = 3 * (N * (2 * d + 2) + 1)).
Proof.
  intros p.
  assert (Hal : aligned p)
    by (apply assemble_aligned, events_well_sized).
  destruct Hal as (H1 & H2 & H3 & H4 & H5). unfold total_length in *.
  assert (Hw : total_dim (w p) = 3 + N * (3 * d + 5)).
  { subst p. rewrite w_closed.
    change (Sym X0 :: flat_map (interval_variables d) (seq 0 N))
      with ([Sym X0] ++ flat_map (interval_variables d) (seq 0 N)).
    rewrite total_dim_app.
    rewrite total_dim_flat_map with (c := stride d)
      by (intros; apply total_dim_interval_variables).
    rewrite length_seq. unfold stride. reflexivity. }
  split; [|split; [exact Hw|]].
  - subst p. rewrite w_closed. cbn [length].
    rewrite flat_map_constant_length with (c := d + 2).
    + now rewrite length_seq.
    + intros k _. unfold interval_variables, Xc_of. cbn [length].
      rewrite length_app, length_map, length_seq. simpl. lia.
  - rewrite H1, H2, H3, Hw.
    split; [reflexivity|]. split; [reflexivity|]. split; [reflexivity|].
    intros HN.
    assert (Hg : Forall (fun c => dim c = 3) (g p)).
    { subst p. rewrite g_assemble, <- rows_assemble, constraint_set_closed by exact HN.
      apply Forall_forall. intros c Hc. apply in_map_iff in Hc.
      destruct Hc as [r [<- Hr]]. apply in_app_or in Hr. destruct Hr as [Hr|[<-|[]]].
      - apply in_flat_map in Hr. destruct Hr as [k [_ Hr]].
        exact (proj1 (Forall_forall _ _) (dim_interval_rows d h sc k) r Hr).
      - reflexivity. }
    assert (Hgt : total_dim (g p) = 3 * (N * (2 * d + 2) + 1)).
    { unfold total_dim.
      rewrite list_sum_constant with (c := 3)
        by (intros c Hc; exact (proj1 (Forall_forall _ _) Hg c Hc)).
      subst p. rewrite length_g_rows, constraint_set_closed, length_app by exact HN.
      rewrite flat_map_constant_length with (c := 1 + d * 2 + 1)
        by (intros; apply length_interval_rows).
      rewrite length_seq. simpl. lia. }
    rewrite H4, H5, Hgt.
    split; [exact Hg|]. split; [reflexivity|]. split; reflexivity.
Qed.

Lemma nlp_sizes_witness :
  1 <= 6
  /\ total_dim (w (assemble (fst (formulate 6 5 (qc 24 1) (zeros 5))))) = 123
  /\ total_dim (g (assemble (fst (formulate 6 5 (qc 24 1) (zeros 5))))) = 219.
Proof.
  assert (HN : 1 <= 6) by lia.
  split; [exact HN|]. split.
  - exact (proj1 (proj2 (@nlp_sizes 6 5 (qc 24 1) (zeros 5)))).
  - exact (proj1 (proj2
             (proj2 (proj2 (proj2 (proj2 (proj2
                (@nlp_sizes 6 5 (qc 24 1) (zeros 5)))))) HN))).
Defined.

(** *** The variables are pairwise distinct symbols *)

Lemma map_flat_map (A B X : Type) (f : B -> X) (b : A -> list B) (l : list A) :
  map f (flat_map b l) = flat_map (fun a => map f (b a)) l.
Proof.
  induction l as [|a l IH]; simpl; [reflexivity|].
  now rewrite map_app, IH.
Qed.

Lemma interval_variables_symbols (d k : nat) :
  interval_variables d k = map Sym (interval_symbols d k).
Proof.
  unfold interval_variables, interval_symbols, Xc_of, control.
  cbn [map]. rewrite map_app, map_map, boundary_succ. reflexivity.
Qed.

Lemma w_symbols (N d : nat) (h : Qc) (sc : scheme) :
  w (assemble (fst (formulate N d h sc))) = map Sym (symbols N d).
Proof.
  rewrite w_closed. unfold symbols. cbn [map]. f_equal.
  rewrite map_flat_map. apply flat_map_agree.
  intros k _. apply interval_variables_symbols.
Qed.

(** X7: every entry of [w] is a symbol of its own: no symbol is appended
    to the decision variables twice. *)
Theorem variables_are_distinct_symbols (N d : nat) (h : Qc) (sc : scheme) :
  let p := assemble (fst (formulate N d h sc)) in
  NoDup (w p) /\ Forall (fun e => exists s, e = Sym s) (w p).
Proof.
  intros p. subst p. rewrite w_symbols. split.
  - apply NoDup_map_NoDup_ForallPairs; [|apply symbols_NoDup].
    intros a b _ _ H. now injection H.
  - apply Forall_forall. intros e He. apply in_map_iff in He.
    destruct He as [s [<- _]]. now exists s.
Qed.

(** *** The constraints mention variables only, and only nearby ones *)

Lemma in_symbols (N d k : nat) :
  k < N ->
  forall s, In s (interval_symbols d k) -> In s (symbols N d).
Proof.
  intros Hk s Hs. right. apply in_flat_map. exists k.
  split; [apply in_seq; lia | exact Hs].
Qed.

Lemma boundary_sym_in_symbols (N d k : nat) :
  k <= N -> In (boundary_sym k) (symbols N d).
Proof.
  intros Hk. destruct k as [|k]; [now left|].
  apply (@in_symbols N d k); [lia|].
  unfold interval_symbols. right. apply in_or_app. right.
  rewrite Nat.add_1_r. now left.
Qed.

Lemma syms_boundary (k : nat) : syms (boundary k) = [boundary_sym k].
Proof. destruct k; reflexivity. Qed.

Lemma syms_fold_plus (c : nat -> Qc) (x : nat -> MX) (l : list nat) (s : sym) :
  forall e0,
    In s (syms (fold_left (fun acc r => Plus acc (Scale (c r) (x r))) l e0)) ->
    In s (syms e0) \/ exists r, In r l /\ In s (syms (x r)).
Proof.
  induction l as [|r l IH]; intros e0 H; [now left|].
  cbn [fold_left] in H. apply IH in H. destruct H as [H|[r' [Hr' H]]].
  - cbn [syms] in H. apply in_app_or in H. destruct H as [H|H]; [now left|].
    right. exists r. split; [now left | exact H].
  - right. exists r'. split; [now right | exact H].
Qed.

(** The symbols interval [k] may use. *)
Lemma near_interval (d k : nat) (s : sym) :
  s = boundary_sym k \/ s = U_ k \/ s = X_ (k + 1)
  \/ (exists j, j < d /\ s = X_kj k j) ->
  s = boundary_sym k \/ In s (interval_symbols d k).
Proof.
  intros [H|[H|[H|[j [Hj H]]]]]; [now left| | |]; right; subst s;
    unfold interval_symbols.
  - now left.
  - right. apply in_or_app. right. now left.
  - right. apply in_or_app. left. apply in_map, in_seq. lia.
Qed.

Lemma syms_item (d k r : nat) (s : sym) :
  r < d -> In s (syms (item (Xc_of k d) r)) -> s = X_kj k r.
Proof.
  intros Hr H. rewrite item_Xc_of in H by exact Hr.
  destruct H as [H|[]]. now symmetry.
Qed.

Lemma interval_rows_local (d : nat) (h : Qc) (sc : scheme) (k : nat) (r : row) (s : sym) :
  In r (interval_rows d h sc k) -> In s (syms (fst r)) ->
  s = boundary_sym k \/ s = U_ k \/ s = X_ (k + 1)
  \/ (exists j, j < d /\ s = X_kj k j).
Proof.
  unfold interval_rows. intros Hr Hs.
  apply in_app_or in Hr. destruct Hr as [[<-|[]]|Hr].
  - cbn [path_row fst syms control] in Hs. rewrite syms_boundary in Hs.
    destruct Hs as [<-|[<-|[]]]; auto.
  - apply in_app_or in Hr. destruct Hr as [Hr|[<-|[]]].
    + apply in_flat_map in Hr. destruct Hr as [j [Hj Hr]]. apply in_seq in Hj.
      destruct Hr as [<-|[<-|[]]].
      * cbn [defect_row fst syms colloc control] in Hs.
        apply in_app_or in Hs. destruct Hs as [Hs|Hs].
        -- destruct Hs as [<-|[<-|[]]]; auto.
           right; right; right. exists (j - 1). split; [lia | reflexivity].
        -- unfold derivative in Hs.
           apply (@syms_fold_plus (fun r => at2 (C sc) (r + 1) j)
                    (fun r => item (Xc_of k d) r)) in Hs.
           destruct Hs as [Hs|[r [Hr Hs]]].
           ++ cbn [syms] in Hs. rewrite syms_boundary in Hs.
              destruct Hs as [<-|[]]; auto.
           ++ apply in_seq in Hr. apply syms_item in Hs; [|lia].
              right; right; right. exists r. split; [lia | exact Hs].
      * cbn [path_row fst syms colloc control] in Hs.
        destruct Hs as [<-|[<-|[]]]; auto.
        right; right; right. exists (j - 1). split; [lia | reflexivity].
    + cbn [continuity_row fst syms] in Hs.
      apply in_app_or in Hs. destruct Hs as [Hs|Hs].
      * unfold end_state in Hs.
        apply (@syms_fold_plus (fun j => nth j (D sc) 0%Qc)
                 (fun j => item (Xc_of k d) (j - 1))) in Hs.
        destruct Hs as [Hs|[j [Hj Hs]]].
        -- cbn [syms] in Hs. rewrite syms_boundary in Hs.
           destruct Hs as [<-|[]]; auto.
        -- apply in_seq in Hj. apply syms_item in Hs; [|lia].
           right; right; right. exists (j - 1). split; [lia | exact Hs].
      * rewrite boundary_succ in Hs. destruct Hs as [<-|[]]; auto.
Qed.

Lemma objective_after_symbols (N d n : nat) (s : sym) :
  n <= N -> In s (syms_SX (objective_after N n)) -> In s (symbols N d).
Proof.
  induction n as [|n IH]; intros Hn Hs; [contradiction|].
  cbn [objective_after] in Hs. unfold objective, rate in Hs.
  assert (HU : In (U_ n) (symbols N d)).
  { apply (@in_symbols N d n); [lia | now left]. }
  assert (HX : In (X_ (n + 1)) (symbols N d)).
  { apply (@in_symbols N d n); [lia|]. unfold interval_symbols.
    right. apply in_or_app. right. now left. }
  assert (HP : forall s, In s (syms (previous_control n)) -> In s (symbols N d)).
  { intros s' Hs'. destruct n as [|n']; [contradiction|].
    destruct Hs' as [<-|[]]. apply (@in_symbols N d n'); [lia | now left]. }
  rewrite boundary_succ in Hs.
  destruct (Z.of_nat n =? Z.of_nat N - 1)%Z; [|destruct (Z.of_nat n >? 0)%Z].
  - cbn [syms_SX syms control] in Hs.
    repeat (apply in_app_or in Hs; destruct Hs as [Hs|Hs]);
      try (apply IH; [lia | exact Hs]);
      try (destruct Hs as [<-|[]]; assumption);
      try (now apply HP); try contradiction.
  - cbn [syms_SX syms control] in Hs.
    repeat (apply in_app_or in Hs; destruct Hs as [Hs|Hs]);
      try (apply IH; [lia | exact Hs]);
      try (destruct Hs as [<-|[]]; assumption);
      try (now apply HP); try contradiction.
  - apply IH; [lia | exact Hs].
Qed.

(** X8: for [N >= 1], every symbol in a constraint row and every symbol in
    the objective is a decision variable in [w]; and the rows of interval
    [k] mention only [X_k], [U_k], the collocation states of interval [k]
    and [X_{k+1}]. *)
Theorem constraints_use_nearby_variables (N d : nat) (h : Qc) (sc : scheme) :
  1 <= N ->
  let p := assemble (fst (formulate N d h sc)) in
  (forall r s, In r (rows p) -> In s (syms (fst r)) -> In (Sym s) (w p))
  /\ (forall s, In s (syms_SX (J (snd (formulate N d h sc)))) -> In (Sym s) (w p))
  /\ (forall k i r s,
        k < N -> i < 1 + d * 2 + 1 ->
        nth_error (rows p) (k * (1 + d * 2 + 1) + i) = Some r ->
        In s (syms (fst r)) ->
        s = boundary_sym k \/ s = U_ k \/ s = X_ (k + 1)
        \/ (exists j, j < d /\ s = X_kj k j)).
Proof.
  intros HN p. subst p. rewrite w_symbols. split; [|split].
  - intros r s Hr Hs. apply in_map.
    rewrite constraint_set_closed in Hr by exact HN.
    apply in_app_or in Hr. destruct Hr as [Hr|[<-|[]]].
    + apply in_flat_map in Hr. destruct Hr as [k [Hk Hr]]. apply in_seq in Hk.
      destruct (near_interval (@interval_rows_local d h sc k r s Hr Hs)) as [->|H].
      * apply boundary_sym_in_symbols. lia.
      * apply (@in_symbols N d k); [lia | exact H].
    + cbn [path_row fst syms control] in Hs. rewrite syms_boundary in Hs.
      destruct Hs as [<-|[<-|[]]].
      * now apply boundary_sym_in_symbols.
      * apply (@in_symbols N d (N - 1)); [lia | now left].
  - intros s Hs. apply in_map. unfold formulate in Hs. rewrite J_rounds in Hs.
    now apply (@objective_after_symbols N d N).
  - intros k i r s Hk Hi Hr Hs.
    rewrite interval_row_at in Hr by assumption.
    apply nth_error_In in Hr.
    exact (@interval_rows_local d h sc k r s Hr Hs).
Qed.

Lemma constraints_use_nearby_variables_witness :
  1 <= 6 /\
  forall s, In s (syms_SX (J (snd (formulate 6 5 (qc 24 1) (zeros 5))))) ->
            In (Sym s) (w (assemble (fst (formulate 6 5 (qc 24 1) (zeros 5))))).
Proof.
  assert (HN : 1 <= 6) by lia.
  split; [exact HN|].
  exact (proj1 (proj2 (@constraints_use_nearby_variables 6 5 (qc 24 1) (zeros 5) HN))).
Defined.

(** *** The guess lies within the bounds *)

Lemma Forall2_Qcle_refl (l : list Qc) : Forall2 Qcle l l.
Proof. induction l; constructor; [apply Qcle_refl | assumption]. Qed.

Lemma block_consistent (N d : nat) (h : Qc) (sc : scheme) (k : nat) :
  Forall consistent (block N d h sc k).
Proof.
  assert (Hinf : Forall2 ext_le lower_inf zero_ext) by (repeat constructor).
  assert (Hzero : Forall2 ext_le zero_ext zero_ext)
    by (repeat constructor; apply Qcle_refl).
  assert (Hx : Forall2 Qcle x_lb x_guess /\ Forall2 Qcle x_guess x_ub)
    by (split; apply all_le_sound; reflexivity).
  assert (Hu : Forall2 Qcle u_lb u_guess /\ Forall2 Qcle u_guess u_ub)
    by (split; apply all_le_sound; reflexivity).
  unfold block. repeat split_Forall_app.
  - constructor; [exact Hu | constructor; [exact I | constructor]].
  - constructor; [exact Hinf | constructor].
  - apply Forall_forall. intros e He. apply in_map_iff in He.
    destruct He as [v [<- _]]. exact Hx.
  - apply Forall_flat_map, Forall_forall. intros j _.
    constructor; [exact Hzero | constructor; [exact Hinf | constructor]].
  - constructor; [exact Hx | constructor; [exact I | constructor]].
  - constructor; [exact Hzero | constructor].
  - destruct (Nat.eqb (k + 1) N);
      [constructor; [exact Hinf | constructor] | constructor].
Qed.

Lemma events_consistent (N d : nat) (h : Qc) (sc : scheme) :
  Forall consistent (fst (formulate N d h sc)).
Proof.
  rewrite events_closed. apply Forall_app. split.
  - constructor; [split; apply Forall2_Qcle_refl|].
    constructor; [exact I | constructor].
  - apply Forall_flat_map, Forall_forall. intros k _. apply block_consistent.
Qed.

Lemma consistent_lists (ev : list event) :
  Forall consistent ev ->
  Forall2 Qcle (concat (flat_map new_lbw ev)) (concat (flat_map new_w0 ev))
  /\ Forall2 Qcle (concat (flat_map new_w0 ev)) (concat (flat_map new_ubw ev))
  /\ Forall2 ext_le (concat (flat_map new_lbg ev)) (concat (flat_map new_ubg ev)).
Proof.
  induction 1 as [|e ev He _ IH]; [repeat split; constructor|].
  destruct IH as (I1 & I2 & I3).
  destruct e as [v lb ub gs|c lb ub|v|v]; cbn [consistent] in He;
    cbn [flat_map new_lbw new_ubw new_w0 new_lbg new_ubg app concat];
    rewrite ?app_nil_r.
  - destruct He as [Hl Hu]. repeat split; try assumption; now apply Forall2_app.
  - repeat split; try assumption. now apply Forall2_app.
  - repeat split; assumption.
  - repeat split; assumption.
Qed.

(** X9: in every NLP the script assembles, the initial guess lies within
    the variable bounds entry by entry (so no lower bound exceeds its upper
    bound), and no constraint's lower bound exceeds its upper bound. *)
Theorem guess_within_bounds (N d : nat) (h : Qc) (sc : scheme) :
  let p := assemble (fst (formulate N d h sc)) in
  Forall2 Qcle (concat (lbw p)) (concat (w0 p))
  /\ Forall2 Qcle (concat (w0 p)) (concat (ubw p))
  /\ Forall2 ext_le (concat (lbg p)) (concat (ubg p)).
Proof.
  intros p. subst p.
  destruct (assemble_fields (fst (formulate N d h sc)))
    as (_ & -> & -> & -> & _ & -> & -> & _).
  apply consistent_lists, events_consistent.
Qed.

(** *** Where the extractor reads *)

Lemma lookup_bind_w (w1 w2 : list MX) (s : sym) :
  ~ In (Sym s) w1 ->
  forall wv,
    lookup (bind_w (w1 ++ Sym s :: w2) wv) s = slice wv (total_dim w1) (sym_dim s).
Proof.
  unfold slice.
  induction w1 as [|e w1 IH]; intros Hnin wv.
  - cbn [app bind_w lookup]. rewrite (proj2 (sym_eqb_eq s s) eq_refl).
    reflexivity.
  - assert (Hnin' : ~ In (Sym s) w1) by (intro H; apply Hnin; now right).
    assert (Hstep : lookup (bind_w ((e :: w1) ++ Sym s :: w2) wv) s
                    = lookup (bind_w (w1 ++ Sym s :: w2) (skipn (dim e) wv)) s).
    { destruct e as [s'| | | | | |]; try reflexivity.
      cbn [app bind_w lookup dim].
      destruct (sym_eqb s' s) eqn:E; [|reflexivity].
      apply sym_eqb_eq in E. subst s'. elim Hnin. now left. }
    rewrite Hstep, IH by exact Hnin'.
    rewrite skipn_skipn.
    change (total_dim (e :: w1)) with (dim e + total_dim w1).
    f_equal. f_equal. lia.
Qed.

Lemma w_split_control (N d : nat) (h : Qc) (sc : scheme) (k : nat) :
  k < N ->
  w (assemble (fst (formulate N d h sc)))
  = (Sym X0 :: flat_map (interval_variables d) (seq 0 k))
    ++ Sym (U_ k)
    :: (Xc_of k d ++ [boundary (k + 1)])
       ++ flat_map (interval_variables d) (seq (S k) (N - S k)).
Proof.
  intros Hk. rewrite w_closed.
  replace N with (k + S (N - S k)) at 1 by lia.
  rewrite seq_app, flat_map_app. cbn [seq flat_map Nat.add].
  unfold interval_variables at 2. unfold control. reflexivity.
Qed.

Lemma w_split_boundary (N d : nat) (h : Qc) (sc : scheme) (k : nat) :
  k < N ->
  w (assemble (fst (formulate N d h sc)))
  = ((Sym X0 :: flat_map (interval_variables d) (seq 0 k))
     ++ control k :: Xc_of k d)
    ++ Sym (X_ (k + 1))
    :: flat_map (interval_variables d) (seq (S k) (N - S k)).
Proof.
  intros Hk. rewrite (w_split_control d h sc Hk).
  rewrite boundary_succ. unfold control.
  rewrite <- !app_assoc. reflexivity.
Qed.

Lemma total_dim_before (d k : nat) :
  total_dim (Sym X0 :: flat_map (interval_variables d) (seq 0 k)) = 3 + k * stride d.
Proof.
  change (Sym X0 :: flat_map (interval_variables d) (seq 0 k))
    with ([Sym X0] ++ flat_map (interval_variables d) (seq 0 k)).
  rewrite total_dim_app.
  rewrite total_dim_flat_map with (c := stride d)
    by (intros; apply total_dim_interval_variables).
  now rewrite length_seq.
Qed.

Lemma not_in_prefix (A : Type) (l1 l2 : list A) (a : A) :
  NoDup (l1 ++ a :: l2) -> ~ In a l1.
Proof.
  intros H Hin. apply NoDup_remove_2 in H. apply H. apply in_or_app. now left.
Qed.

Lemma w_NoDup (N d : nat) (h : Qc) (sc : scheme) :
  NoDup (w (assemble (fst (formulate N d h sc)))).
Proof.
  rewrite w_symbols.
  apply NoDup_map_NoDup_ForallPairs; [|apply symbols_NoDup].
  intros a b _ _ H. now injection H.
Qed.

Lemma column_boundary (N d : nat) (h : Qc) (sc : scheme) (wv : list Qc) (k : nat) :
  k <= N ->
  column (bind_w (w (assemble (fst (formulate N d h sc)))) wv) (boundary k)
  = slice wv (k * stride d) 3.
Proof.
  intros Hk. destruct k as [|k].
  - rewrite w_closed. cbn [boundary column].
    exact (@lookup_bind_w [] _ X0 (fun H => H) wv).
  - cbn [boundary column].
    assert (Hk' : k < N) by lia.
    assert (Hnd := w_NoDup N d h sc).
    rewrite (w_split_boundary d h sc Hk') in Hnd |- *.
    rewrite Nat.add_1_r in Hnd |- *.
    rewrite lookup_bind_w by (exact (not_in_prefix _ _ _ Hnd)).
    f_equal.
    change (control k :: Xc_of k d) with ([control k] ++ Xc_of k d).
    rewrite !total_dim_app, total_dim_before, total_dim_Xc_of.
    unfold total_dim, stride. simpl. lia.
Qed.

Lemma column_control (N d : nat) (h : Qc) (sc : scheme) (wv : list Qc) (k : nat) :
  k < N ->
  column (bind_w (w (assemble (fst (formulate N d h sc)))) wv) (control k)
  = slice wv (k * stride d + 3) 2.
Proof.
  intros Hk. cbn [control column].
  assert (Hnd := w_NoDup N d h sc).
  rewrite (w_split_control d h sc Hk) in Hnd |- *.
  rewrite lookup_bind_w by (exact (not_in_prefix _ _ _ Hnd)).
  rewrite total_dim_before. f_equal. lia.
Qed.

Lemma length_slice (wv : list Qc) (off n : nat) :
  off + n <= length wv -> length (slice wv off n) = n.
Proof.
  intros H. unfold slice. rewrite length_firstn, length_skipn. lia.
Qed.

(** X10: on a vector [wv] of [3 + N (3 d + 5)] scalars the extractor
    reads state column [k] from the three entries at offset
    [k (3 d + 5)] and control column [k] from the two entries at offset
    [k (3 d + 5) + 3]; it reads nothing else, and all columns are full. *)
Theorem trajectories_read_fixed_offsets (N d : nat) (h : Qc) (sc : scheme)
    (wv : list Qc) :
  length wv = 3 + N * (3 * d + 5) ->
  let p := assemble (fst (formulate N d h sc)) in
  fst (trajectories p wv)
  = map (fun k => firstn 3 (skipn (k * (3 * d + 5)) wv)) (seq 0 (N + 1))
  /\ snd (trajectories p wv)
     = map (fun k => firstn 2 (skipn (k * (3 * d + 5) + 3) wv)) (seq 0 N)
  /\ Forall (fun c => length c = 3) (fst (trajectories p wv))
  /\ Forall (fun c => length c = 2) (snd (trajectories p wv)).
Proof.
  intros Hlen p.
  assert (Hx : fst (trajectories p wv)
               = map (fun k => slice wv (k * stride d) 3) (seq 0 (N + 1))).
  { subst p. unfold trajectories. cbn [fst]. rewrite x_plot_closed, map_map.
    apply map_ext_in. intros k Hk. apply in_seq in Hk.
    apply column_boundary. lia. }
  assert (Hu : snd (trajectories p wv)
               = map (fun k => slice wv (k * stride d + 3) 2) (seq 0 N)).
  { subst p. unfold trajectories. cbn [snd]. rewrite u_plot_closed, map_map.
    apply map_ext_in. intros k Hk. apply in_seq in Hk.
    apply column_control. lia. }
  split; [exact Hx|]. split; [exact Hu|]. rewrite Hx, Hu. split.
  - apply Forall_forall. intros c Hc. apply in_map_iff in Hc.
    destruct Hc as [k [<- Hk]]. apply in_seq in Hk.
    apply length_slice. unfold stride. nia.
  - apply Forall_forall. intros c Hc. apply in_map_iff in Hc.
    destruct Hc as [k [<- Hk]]. apply in_seq in Hk.
    apply length_slice. unfold stride. nia.
Qed.

Lemma trajectories_read_fixed_offsets_witness :
  length sample_vector = 3 + 1 * (3 * 1 + 5)
  /\ snd (trajectories (assemble (fst (formulate 1 1 (qc 144 1) (zeros 1)))) sample_vector)
     = map (fun k => firstn 2 (skipn (k * (3 * 1 + 5) + 3) sample_vector)) (seq 0 1).
Proof.
  assert (Hlen : length sample_vector = 3 + 1 * (3 * 1 + 5)) by reflexivity.
  split; [exact Hlen|].
  exact (proj1 (proj2 (@trajectories_read_fixed_offsets 1 1 (qc 144 1) (zeros 1)
                         sample_vector Hlen))).
Defined.

(** *** The objective as a whole *)

Lemma qsum_app (a b : list Qc) : qsum (a ++ b) = (qsum a + qsum b)%Qc.
Proof.
  induction a as [|x a IH]; simpl; [ring|]. rewrite IH. ring.
Qed.

Lemma qsum_snoc (f : nat -> Qc) (n : nat) :
  qsum (map f (seq 1 (S n))) = (qsum (map f (seq 1 n)) + f (S n))%Qc.
Proof.
  rewrite seq_S, map_app, qsum_app. simpl. ring.
Qed.

Lemma value_penalties (ODEeq : vec -> vec -> vec) (env : sym -> vec) (k : nat) (J0 : SX) :
  value ODEeq env
    (SMinus (SMinus J0 (rate (control k) (previous_control k) 0 (qc 4 1) (qc 10 1)))
            (rate (control k) (previous_control k) 1 (qc 9 1) (qc 1000 1)))
  = (value ODEeq env J0 - rate_penalty env k)%Qc.
Proof.
  cbn [value].
  rewrite (@value_rate ODEeq env k 0) by lia.
  rewrite (@value_rate ODEeq env k 1) by lia.
  unfold rate_penalty. ring.
Qed.

(** The objective before the last interval: minus the penalties so far. *)
Lemma value_objective_running (ODEeq : vec -> vec -> vec) (env : sym -> vec) (N n : nat) :
  n < N ->
  value ODEeq env (objective_after N n)
  = (- qsum (map (rate_penalty env) (seq 1 (n - 1))))%Qc.
Proof.
  induction n as [|m IH]; intros Hn.
  - simpl. ring.
  - cbn [objective_after]. unfold objective. rewrite final_test.
    replace (Nat.eqb (m + 1) N) with false by (symmetry; apply Nat.eqb_neq; lia).
    destruct m as [|m'].
    + simpl. ring.
    + rewrite positive_test by lia. rewrite value_penalties, IH by lia.
      replace (S (S m') - 1) with (S (S m' - 1)) by lia.
      rewrite qsum_snoc. replace (S (S m' - 1)) with (S m') by lia. ring.
Qed.

(** X11: the objective the script builds has the value of the terminal
    reward [4 * X_N[2] - 1e-3 * X_N[1]] minus the control-rate penalties of
    the intervals [1 .. N-1] when [N >= 2]; the first control is not
    penalised, and no other state enters.  For [N = 1] it is the terminal
    reward minus the penalty of [U_0] against [[0.001, 100]]. *)
Theorem objective_value (N d : nat) (h : Qc) (sc : scheme)
    (ODEeq : vec -> vec -> vec) (env : sym -> vec) :
  (2 <= N ->
   value ODEeq env (J (snd (formulate N d h sc)))
   = (qc 4 1 * env (X_ N) 2%nat - qc 1 1000 * env (X_ N) 1%nat
      - qsum (map (fun k =>
                     ((env (U_ k) 0%nat - env (U_ (k - 1)%nat) 0%nat) * qc 4 1 / qc 10 1) ^ 2
                     + ((env (U_ k) 1%nat - env (U_ (k - 1)%nat) 1%nat) * qc 9 1 / qc 1000 1) ^ 2)
                  (seq 1%nat (N - 1)%nat)))%Qc)
  /\ (N = 1 ->
      value ODEeq env (J (snd (formulate N d h sc)))
      = (qc 4 1 * env (X_ 1%nat) 2%nat - qc 1 1000 * env (X_ 1%nat) 1%nat
         - (((env (U_ 0%nat) 0%nat - qc 1 1000) * qc 4 1 / qc 10 1) ^ 2
            + ((env (U_ 0%nat) 1%nat - qc 100 1) * qc 9 1 / qc 1000 1) ^ 2))%Qc).
Proof.
  assert (Hlast : forall m, N = S m ->
            value ODEeq env (J (snd (formulate N d h sc)))
            = (value ODEeq env (objective_after N m)
               + qc 4 1 * env (X_ N) 2%nat - qc 1 1000 * env (X_ N) 1%nat
               - rate_penalty env m)%Qc).
  { intros m HN. unfold formulate. rewrite J_rounds. subst N.
    cbn [objective_after]. unfold objective. rewrite final_test.
    replace (Nat.eqb (m + 1) (S m)) with true by (symmetry; apply Nat.eqb_eq; lia).
    cbn [value].
    rewrite (@value_rate ODEeq env m 0) by lia.
    rewrite (@value_rate ODEeq env m 1) by lia.
    rewrite boundary_succ, Nat.add_1_r. unfold rate_penalty.
    change (denote ODEeq env (Sym (X_ (S m))) (index (dim (Sym (X_ (S m)))) (-1)))
      with (env (X_ (S m)) 2%nat).
    change (denote ODEeq env (Sym (X_ (S m))) (index (dim (Sym (X_ (S m)))) 1))
      with (env (X_ (S m)) 1%nat).
    ring. }
  split.
  - intros HN. destruct N as [|[|m]]; try lia.
    rewrite (@qsum_agree _ (fun k =>
               ((env (U_ k) 0%nat - env (U_ (k - 1)%nat) 0%nat) * qc 4 1 / qc 10 1) ^ 2
               + ((env (U_ k) 1%nat - env (U_ (k - 1)%nat) 1%nat) * qc 9 1 / qc 1000 1) ^ 2)%Qc
               (rate_penalty env) (seq 1 (S (S m) - 1))).
    + rewrite (Hlast (S m) eq_refl), value_objective_running by lia.
      replace (S (S m) - 1) with (S (S m - 1)) by lia.
      rewrite qsum_snoc. replace (S (S m - 1)) with (S m) by lia. ring.
    + intros k Hk. apply in_seq in Hk. unfold rate_penalty.
      destruct k as [|k]; [lia|]. cbn [previous_value].
      replace (S k - 1) with k by lia. reflexivity.
  - intros HN. subst N. rewrite (Hlast 0 eq_refl).
    cbn [objective_after value]. unfold rate_penalty. cbn [previous_value nth].
    ring.
Qed.

Lemma objective_value_witness :
  2 <= 6 /\
  value sample_ODEeq sample_env (J (snd (formulate 6 5 (qc 24 1) (zeros 5))))
  = (qc 4 1 * sample_env (X_ 6%nat) 2%nat - qc 1 1000 * sample_env (X_ 6%nat) 1%nat
     - qsum (map (fun k =>
                    ((sample_env (U_ k) 0%nat - sample_env (U_ (k - 1)%nat) 0%nat)
                     * qc 4 1 / qc 10 1) ^ 2
                    + ((sample_env (U_ k) 1%nat - sample_env (U_ (k - 1)%nat) 1%nat)
                       * qc 9 1 / qc 1000 1) ^ 2)
                 (seq 1%nat (6 - 1)%nat)))%Qc.
Proof.
  assert (HN : 2 <= 6) by lia.
  split; [exact HN|].
  exact (proj1 (@objective_value 6 5 (qc 24 1) (zeros 5) sample_ODEeq sample_env) HN).
Defined.

(** *** The coefficients inside the constraints *)

Lemma qsum_scale (A : Type) (c : A -> Qc) (a : Qc) (l : list A) :
  qsum (map (fun r => (c r * a)%Qc) l) = (qsum (map c l) * a)%Qc.
Proof.
  induction l as [|r l IH]; simpl; [ring|]. rewrite IH. ring.
Qed.

Lemma seq_from_zero (d : nat) : seq 0 (d + 1) = 0 :: seq 1 d.
Proof. rewrite Nat.add_1_r. reflexivity. Qed.

(** X12: whatever the coefficient arrays [C] and [D] hold, when every
    state of interval [k] has the same value [v] the defect row [j] has the
    value [h * ODEeq(v, U_k) - (sum over r of C[r][j]) * v] and the
    continuity row the value [(sum over j of D[j]) * v - X_{k+1}].  What a
    constant state leaves in these rows is the column sum of [C] and the
    distance of the sum of [D] from one, times the state. *)
Theorem constant_state_rows (d : nat) (sc : scheme) (h : Qc)
    (ODEeq : vec -> vec -> vec) (env : sym -> vec) (v : vec) (k j i : nat) :
  1 <= j <= d ->
  env (boundary_sym k) = v ->
  (forall r, r < d -> env (X_kj k r) = v) ->
  denote ODEeq env (fst (defect_row d h sc k j)) i
  = (h * ODEeq v (env (U_ k)) i
     - qsum (map (fun r => at2 (C sc) r j) (seq 0 (d + 1))) * v i)%Qc
  /\ denote ODEeq env (fst (continuity_row d sc k)) i
     = (qsum (map (fun r => nth r (D sc) 0%Qc) (seq 0 (d + 1))) * v i
        - denote ODEeq env (boundary (k + 1)) i)%Qc.
Proof.
  intros Hj HX HXc.
  assert (Hb : denote ODEeq env (boundary k) = v)
    by (destruct k; exact HX).
  assert (Hc : forall r, In r (seq 1 d) -> denote ODEeq env (colloc k r) = v).
  { intros r Hr. apply in_seq in Hr. unfold colloc. cbn [denote].
    apply HXc. lia. }
  rewrite seq_from_zero. cbn [map qsum fold_right].
  fold (qsum (map (fun r => at2 (C sc) r j) (seq 1 d))).
  fold (qsum (map (fun r => nth r (D sc) 0%Qc) (seq 1 d))).
  split.
  - cbn [defect_row fst denote]. rewrite denote_derivative.
    fold (colloc k j). rewrite Hb, (Hc j) by (apply in_seq; lia).
    cbn [control denote].
    rewrite (@qsum_agree _ _ (fun r => at2 (C sc) r j * v i)%Qc)
      by (intros r Hr; now rewrite (Hc r Hr)).
    rewrite qsum_scale. ring.
  - cbn [continuity_row fst denote]. rewrite denote_end_state, Hb.
    rewrite (@qsum_agree _ _ (fun r => nth r (D sc) 0 * v i)%Qc)
      by (intros r Hr; now rewrite (Hc r Hr)).
    rewrite qsum_scale. ring.
Qed.

Lemma constant_state_rows_witness :
  1 <= 1 <= 2
  /\ steady_env (fun _ => qc 5 1) (boundary_sym 0) = (fun _ => qc 5 1)
  /\ (forall r, r < 2 -> steady_env (fun _ => qc 5 1) (X_kj 0 r) = (fun _ => qc 5 1))
  /\ denote sample_ODEeq (steady_env (fun _ => qc 5 1))
       (fst (defect_row 2 (qc 144 1) (zeros 2) 0 1)) 0
     = (qc 144 1 * sample_ODEeq (fun _ => qc 5 1)
                     (steady_env (fun _ => qc 5 1) (U_ 0)) 0%nat
        - qsum (map (fun r => at2 (C (zeros 2)) r 1) (seq 0 (2 + 1)))
          * qc 5 1)%Qc.
Proof.
  assert (Hj : 1 <= 1 <= 2) by lia.
  assert (HX : steady_env (fun _ => qc 5 1) (boundary_sym 0) = (fun _ => qc 5 1))
    by reflexivity.
  assert (HXc : forall r, r < 2 ->
                  steady_env (fun _ => qc 5 1) (X_kj 0 r) = (fun _ => qc 5 1))
    by (intros; reflexivity).
  split; [exact Hj|]. split; [exact HX|]. split; [exact HXc|].
  exact (proj1 (@constant_state_rows 2 (zeros 2) (qc 144 1)
                  sample_ODEeq (steady_env (fun _ => qc 5 1)) (fun _ => qc 5 1)
                  0 1 0 Hj HX HXc)).
Defined.

(** *** The outcomes of the script *)

Lemma build_never_raises (d : nat) (tau : list Qc) : build d tau <> Raised.
Proof.
  unfold build.
  assert (H : forall js acc, acc <> Raised ->
                fold_left (basis_step d tau) js acc <> Raised).
  { induction js as [|j js IH]; intros acc Hacc; simpl; [exact Hacc|].
    apply IH. now apply basis_step_not_raised. }
  apply H. discriminate.
Qed.

(** X14: whatever collocation points are given, duplicates included,
    formulating the NLP raises exactly when there is no interval ([N = 0],
    the division [T/N] of line 124). *)
Theorem offline_nlp_outcomes (N d : nat) (pts : list Qc) :
  offline_nlp N d pts = Raised <-> N = 0.
Proof.
  destruct N as [|n].
  - split; reflexivity.
  - split; [|lia]. intros H. exfalso. revert H.
    unfold offline_nlp.
    assert (Hw : width (S n) = Finite (T / of_nat (S n))%Qc) by reflexivity.
    rewrite Hw. cbn [bind].
    assert (Hb := @build_never_raises d (tau_root pts)).
    destruct (build d (tau_root pts)) as [sc| |]; cbn [bind].
    + destruct (formulate (S n) d (T / of_nat (S n))%Qc sc). discriminate.
    + discriminate.
    + contradiction.
Qed.

End NlpFacts.

(** ** The dynamic system *)

Module DynamicsFacts.
Import Expr Dynamics.
Local Open Scope Qc_scope.

Lemma Iz_dark (exp : Qc -> Qc) (Cx : Qc) (i : nat) : Iz exp Cx 0 i = 0.
Proof. unfold Iz, lb_law. ring. Qed.

Lemma trap_dark (exp : Qc -> Qc) (K1 K2 Cx : Qc) : trap exp K1 K2 Cx 0 = 0.
Proof.
  unfold trap, disc_int. cbn [fold_left seq Nat.sub].
  rewrite !Iz_dark. unfold Qcdiv. ring.
Qed.

Lemma defined_sample : defined sample_exp sample_state sample_control.
Proof.
  split; [|split].
  - intro H. apply (f_equal this) in H. vm_compute in H. discriminate.
  - intro H. apply (f_equal this) in H. vm_compute in H. discriminate.
  - intros i _. split; intro H; apply (f_equal this) in H;
      vm_compute in H; discriminate.
Qed.

Lemma defined_dark : defined sample_exp sample_state dark_control.
Proof.
  split; [|split].
  - intro H. apply (f_equal this) in H. vm_compute in H. discriminate.
  - intro H. apply (f_equal this) in H. vm_compute in H. discriminate.
  - intros i _. split; intro H; apply (f_equal this) in H;
      vm_compute in H; discriminate.
Qed.

Lemma defined_empty : defined sample_exp empty_state sample_control.
Proof.
  split; [|split].
  - intro H. apply (f_equal this) in H. vm_compute in H. discriminate.
  - intro H. apply (f_equal this) in H. vm_compute in H. discriminate.
  - intros i _. split; intro H; apply (f_equal this) in H;
      vm_compute in H; discriminate.
Qed.

(** X15: wherever the model is defined, the nitrate rate is the feed rate
    minus [Y_nx] times the gross growth rate of the biomass, the biomass
    rate with its decay [u_d * Cx] added back:
    [dev_Cn = Fnin - Y_nx * (dev_Cx + u_d * Cx)]. *)
Theorem nitrate_balance (exp : Qc -> Qc) (x u : vec) :
  defined exp x u ->
  ODEeq exp x u 1%nat
  = u 0%nat - Y_nx * (ODEeq exp x u 0%nat + u_d * x 0%nat).
Proof.
  intros _. unfold ODEeq, dev_Cn, dev_Cx, Qcdiv. ring.
Qed.

Lemma nitrate_balance_witness :
  defined sample_exp sample_state sample_control
  /\ ODEeq sample_exp sample_state sample_control 1%nat
     = sample_control 0%nat
       - Y_nx * (ODEeq sample_exp sample_state sample_control 0%nat
                 + u_d * sample_state 0%nat).
Proof.
  split; [exact defined_sample|].
  exact (@nitrate_balance sample_exp sample_state sample_control defined_sample).
Defined.

(** X16: with no biomass ([Cx = 0]) and the model defined, biomass and
    lutein do not change and nitrate changes at the feed rate, whatever the
    light. *)
Theorem no_biomass_no_growth (exp : Qc -> Qc) (x u : vec) :
  defined exp x u ->
  x 0%nat = 0 ->
  ODEeq exp x u 0%nat = 0
  /\ ODEeq exp x u 1%nat = u 0%nat
  /\ ODEeq exp x u 2%nat = 0.
Proof.
  intros _ Hx. unfold ODEeq, dev_Cx, dev_Cn, dev_Cl, Qcdiv. rewrite Hx.
  split; [ring|]. split; ring.
Qed.

Lemma no_biomass_no_growth_witness :
  defined sample_exp empty_state sample_control
  /\ empty_state 0%nat = 0
  /\ ODEeq sample_exp empty_state sample_control 0%nat = 0
  /\ ODEeq sample_exp empty_state sample_control 1%nat = sample_control 0%nat
  /\ ODEeq sample_exp empty_state sample_control 2%nat = 0.
Proof.
  split; [exact defined_empty|]. split; [reflexivity|].
  exact (@no_biomass_no_growth sample_exp empty_state sample_control
           defined_empty eq_refl).
Defined.

(** X17: in the dark ([I0 = 0]) and with the model defined, both light
    factors [u_0] and [k_0] vanish: the biomass only decays at rate [u_d],
    nitrate changes at the feed rate and lutein is only consumed. *)
Theorem darkness_leaves_decay (exp : Qc -> Qc) (x u : vec) :
  defined exp x u ->
  u 1%nat = 0 ->
  u_0 exp (x 0%nat) (u 1%nat) = 0
  /\ k_0 exp (x 0%nat) (u 1%nat) = 0
  /\ ODEeq exp x u 0%nat = - (u_d * x 0%nat)
  /\ ODEeq exp x u 1%nat = u 0%nat
  /\ ODEeq exp x u 2%nat = - (Kd * x 2%nat * x 0%nat).
Proof.
  intros _ Hu.
  assert (Hu0 : u_0 exp (x 0%nat) (u 1%nat) = 0).
  { unfold u_0, um_trap. rewrite Hu, trap_dark. ring. }
  assert (Hk0 : k_0 exp (x 0%nat) (u 1%nat) = 0).
  { unfold k_0, km_trap. rewrite Hu, trap_dark. ring. }
  split; [exact Hu0|]. split; [exact Hk0|].
  unfold ODEeq, dev_Cx, dev_Cn, dev_Cl, Qcdiv. rewrite Hu0, Hk0.
  split; [ring|]. split; ring.
Qed.

Lemma darkness_leaves_decay_witness :
  defined sample_exp sample_state dark_control
  /\ dark_control 1%nat = 0
  /\ ODEeq sample_exp sample_state dark_control 0%nat
     = - (u_d * sample_state 0%nat).
Proof.
  split; [exact defined_dark|]. split; [reflexivity|].
  exact (proj1 (proj2 (proj2
    (@darkness_leaves_decay sample_exp sample_state dark_control
       defined_dark eq_refl)))).
Defined.

End DynamicsFacts.

(** ** The checks after the solve *)

Module PostSolveFacts.
Import Expr Transcribe PostSolve.
Local Open Scope Qc_scope.

Lemma getrow_length (x_opt : list (list Qc)) (i : nat) :
  length (getrow x_opt i) = length x_opt.
Proof. unfold getrow. apply length_map. Qed.

Lemma getrow_nth (x_opt : list (list Qc)) (i k : nat) :
  (k < length x_opt)%nat ->
  nth k (getrow x_opt i) 0 = state_at x_opt k i.
Proof.
  intro Hk. unfold getrow, state_at.
  rewrite (nth_indep (map (fun c => nth i c 0) x_opt) 0
             ((fun c => nth i c 0) [])) by (rewrite length_map; exact Hk).
  apply (map_nth (fun c : list Qc => nth i c 0)).
Qed.

Lemma nth_map_in (A : Type) (f : A -> Qc) (l : list A) (k : nat) (a : A) :
  (k < length l)%nat -> nth k (map f l) 0 = f (nth k l a).
Proof.
  intro Hk.
  rewrite (nth_indep (map f l) 0 (f a)) by (rewrite length_map; exact Hk).
  apply map_nth.
Qed.

(** X19: the three arrays computed after the solve are the model's path
    constraints [LT] at the boundary states, under the names in reverse
    order: entry [k] of [g1] is the third path constraint at column [k] of
    [x_opt], of [g2] the second and of [g3] the first; each array has one
    entry for every column. *)
Theorem checks_are_the_path_constraints
    (x_opt : list (list Qc)) (u : vec) (k : nat) :
  (k < length x_opt)%nat ->
  nth k (g1 x_opt) 0 = LT (state_at x_opt k) u 2%nat
  /\ nth k (g2 x_opt) 0 = LT (state_at x_opt k) u 1%nat
  /\ nth k (g3 x_opt) 0 = LT (state_at x_opt k) u 0%nat
  /\ length (g1 x_opt) = length x_opt
  /\ length (g2 x_opt) = length x_opt
  /\ length (g3 x_opt) = length x_opt.
Proof.
  intro Hk.
  split; [|split; [|split; [|split; [|split]]]].
  - unfold g1.
    rewrite (@nth_map_in _ _ _ k (0, 0))
      by (rewrite length_combine, !getrow_length, Nat.min_id; exact Hk).
    rewrite combine_nth by (rewrite !getrow_length; reflexivity).
    cbn [fst snd]. rewrite !getrow_nth by exact Hk.
    cbn [LT]. ring.
  - unfold g2.
    rewrite (@nth_map_in _ _ _ k 0) by (rewrite getrow_length; exact Hk).
    rewrite getrow_nth by exact Hk. reflexivity.
  - unfold g3.
    rewrite (@nth_map_in _ _ _ k 0) by (rewrite getrow_length; exact Hk).
    rewrite getrow_nth by exact Hk. reflexivity.
  - unfold g1. rewrite length_map, length_combine, !getrow_length.
    apply Nat.min_id.
  - unfold g2. rewrite length_map. apply getrow_length.
  - unfold g3. rewrite length_map. apply getrow_length.
Qed.

Lemma checks_are_the_path_constraints_witness :
  (1 < length [x0_fixed; x_guess])%nat
  /\ nth 1 (g1 [x0_fixed; x_guess]) 0
     = LT (state_at [x0_fixed; x_guess] 1) (fun _ => 0) 2%nat.
Proof.
  assert (H : (1 < length [x0_fixed; x_guess])%nat) by (simpl; lia).
  split; [exact H|].
  exact (proj1 (@checks_are_the_path_constraints
                  [x0_fixed; x_guess] (fun _ => 0) 1%nat H)).
Defined.

End PostSolveFacts.

(** * The coefficient arrays in binary64 *)

Module Float64Facts.
Import Float64 Float64Spec.

Lemma distinctb_sound (l : list Qc) : distinctb l = true -> NoDup l.
Proof.
  induction l as [|a t IH]; simpl; intros H; [constructor|].
  apply andb_prop in H. destruct H as [Ha Ht].
  constructor; [|now apply IH].
  intros Hin. rewrite forallb_forall in Ha. specialize (Ha a Hin).
  destruct (Qc_eq_dec a a); [discriminate | congruence].
Qed.

(** C8 as stated fails in the arithmetic the script runs in.  The three
    nodes [0, 2^-1074, 1] are pairwise distinct and start at [0]; the first
    quotient [1 / (0 - 2^-1074)] overflows, two of the three continuity
    coefficients are [nan], and [sum(D)] is within no tolerance of one.  For
    the 21 equally spaced nodes [i / 20] every coefficient is finite;
    [sum(D)] is more than [0.4] away from one, and so is the sum taken
    exactly. *)
Lemma C8_counterexample :
  (length tiny_gap = (2 + 1)%nat
   /\ NoDup (map value tiny_gap)
   /\ nth 0 tiny_gap 0%float = 0%float
   /\ D (build 2 tiny_gap) = [nan; nan; 1%float]
   /\ forall tol : float,
        (abs (fsum (D (build 2 tiny_gap)) - 1) <=? tol)%float = false)
  /\ (length (equispaced 20) = (20 + 1)%nat
      /\ NoDup (map value (equispaced 20))
      /\ nth 0 (equispaced 20) 0%float = 0%float
      /\ forallb (fun x => negb (nonfinite x)) (D (build 20 (equispaced 20))) = true
      /\ (abs (fsum (D (build 20 (equispaced 20))) - 1) <=? 0x1.999999999999ap-2)%float
         = false
      /\ (qc 14 10 < qsum (map value (D (build 20 (equispaced 20)))))%Qc).
Proof.
  split.
  - split; [reflexivity|].
    split; [apply distinctb_sound; vm_compute; reflexivity|].
    split; [reflexivity|].
    split; [vm_compute; reflexivity|].
    intros tol. rewrite leb_spec.
    replace (Prim2SF (abs (fsum (D (build 2 tiny_gap)) - 1))) with S754_nan
      by (vm_compute; reflexivity).
    reflexivity.
  - split; [reflexivity|].
    split; [apply distinctb_sound; vm_compute; reflexivity|].
    split; [vm_compute; reflexivity|].
    split; [vm_compute; reflexivity|].
    split; [vm_compute; reflexivity|].
    vm_compute. reflexivity.
Qed.

(** *** Non-finite values spread *)








(** *** The leading coefficient through the polynomial operations *)













(** *** Evaluation, derivative and integral *)






(** *** Where the loop of line 23 leaves its values *)

















End Float64Facts.
